(** * Point.hpp: a three-dimensional point over a caller-chosen coordinate type

    The header declares the class template [Point<CoordinateType>]: three
    data members [x_], [y_], [z_], a constructor, a const and a non-const
    accessor per coordinate, and [distanceFrom], which returns a [double].

    The development has four layers.
    - [IEEE]: the binary floating-point arithmetic that [double] and [float]
      stand for, taken from the Standard Library's executable specification
      [SpecFloat] (round to nearest, ties to even), with the sign lemmas the
      distance proofs need.
    - [Arithmetic]: what [distanceFrom] asks of a coordinate type (binary [-],
      [*], [+] and an overload of [std::sqrt]), with the instances for the
      three types the header's comments name: [double], [float] and [int].
    - The class itself on object values: [Point], [Point_new], [x], [y], [z],
      [distanceFrom].
    - [Objects]: objects in a store, references to data members, and the
      member functions as store computations, for the claims about writes. *)

From Stdlib Require Import ZArith Bool Lia List.
From Stdlib Require Import Floats.SpecFloat.
From stdpp Require Import gmap.

Local Open Scope Z_scope.

(* ===================================================================== *)
(** * IEEE 754 binary arithmetic *)
(* ===================================================================== *)

Module IEEE.

(** A value that is not a NaN and whose sign bit is [s]. *)
Definition has_sign (s : bool) (f : spec_float) : bool :=
  match f with
  | S754_zero s' | S754_infinity s' | S754_finite s' _ _ => Bool.eqb s s'
  | S754_nan => false
  end.

Definition is_nan (f : spec_float) : bool :=
  match f with S754_nan => true | _ => false end.

(** Neither an infinity nor a NaN. *)
Definition is_finite (f : spec_float) : bool :=
  match f with
  | S754_zero _ | S754_finite _ _ _ => true
  | S754_infinity _ | S754_nan => false
  end.

Definition pos_zero : spec_float := S754_zero false.

(** The exact value of a finite number is [m * 2^e]; [value_between] compares
    it with the decimal fractions [lo / 10^d] and [hi / 10^d] over the
    integers ([e <= 0] is the only case the development needs). *)
Definition value_between (lo hi : Z) (d : Z) (f : spec_float) : bool :=
  match f with
  | S754_finite false m e =>
      (e <=? 0) && (lo * 2 ^ (- e) <=? Z.pos m * 10 ^ d)
                && (Z.pos m * 10 ^ d <? hi * 2 ^ (- e))
  | _ => false
  end.

(** The finite number [f] is exactly the integer [n]. *)
Definition value_is (n : Z) (f : spec_float) : bool :=
  match f with
  | S754_finite false m e => (e <=? 0) && (Z.pos m =? n * 2 ^ (- e))
  | _ => false
  end.

(** The finite number [f = m * 2^e] lies within half a unit of its last
    place of the real square root of [n]:
    [(m - 1/2) * 2^e < sqrt n < (m + 1/2) * 2^e], squared and scaled to the
    integers. *)
Definition nearest_to_sqrt (n : Z) (f : spec_float) : bool :=
  match f with
  | S754_finite false m e =>
      (e <=? 0) && ((2 * Z.pos m - 1) ^ 2 <? 4 * n * 2 ^ (- 2 * e))
                && (4 * n * 2 ^ (- 2 * e) <? (2 * Z.pos m + 1) ^ 2)
  | _ => false
  end.

Section Format.
Variables prec emax : Z.

(** Conversion of an integer, as [static_cast] to a floating type does it:
    the integer is rounded to the format. *)
Definition of_Z (z : Z) : spec_float := binary_normalize prec emax z 0 false.

(** Conversion of a value of another (narrower) format to this one: the
    special values are kept and a finite value is rounded to the format. *)
Definition convert (f : spec_float) : spec_float :=
  match f with
  | S754_finite s m e => binary_round prec emax s m e
  | _ => f
  end.

End Format.

End IEEE.

(* ===================================================================== *)
(** * Coordinate types *)
(* ===================================================================== *)

(** [double] is IEEE binary64 and [float] is IEEE binary32, with every
    operation evaluated in the format of its operands and rounded on its own
    (no fused multiply-add); NaN payloads are not represented.  [int] is a 32-bit two's complement integer held as a [Z];
    its arithmetic keeps the low 32 bits of the exact result (signed overflow
    has no defined result in C++: the lemmas that need the exact result carry
    a bound that excludes it). *)

Definition double : Type := spec_float.
Definition float : Type := spec_float.
Definition int : Type := Z.

#[global] Typeclasses Opaque double float int.

Module Double.
Definition prec : Z := 53.
Definition emax : Z := 1024.
Definition sub (a b : double) : double := SFsub prec emax a b.
Definition mul (a b : double) : double := SFmul prec emax a b.
Definition add (a b : double) : double := SFadd prec emax a b.
Definition sqrt (a : double) : double := SFsqrt prec emax a.
Definition of_Z (n : Z) : double := IEEE.of_Z prec emax n.
(** The comparison [a <= b] of the language: false when either is a NaN. *)
Definition leb (a b : double) : bool := SFleb a b.
End Double.

Module Float.
Definition prec : Z := 24.
Definition emax : Z := 128.
Definition sub (a b : float) : float := SFsub prec emax a b.
Definition mul (a b : float) : float := SFmul prec emax a b.
Definition add (a b : float) : float := SFadd prec emax a b.
Definition sqrt (a : float) : float := SFsqrt prec emax a.
Definition of_Z (n : Z) : float := IEEE.of_Z prec emax n.
(** The implicit conversion [float -> double]. *)
Definition to_double (a : float) : double :=
  IEEE.convert Double.prec Double.emax a.
End Float.

Module Int.
Definition INT_MAX : Z := 2147483647.
Definition INT_MIN : Z := -2147483648.
Definition in_range (n : Z) : bool := (INT_MIN <=? n) && (n <=? INT_MAX).
Definition wrap (n : Z) : int := (n + 2 ^ 31) mod 2 ^ 32 - 2 ^ 31.
Definition sub (a b : int) : int := wrap (a - b).
Definition mul (a b : int) : int := wrap (a * b).
Definition add (a b : int) : int := wrap (a + b).
(** The implicit conversion [int -> double], exact for every [int]. *)
Definition to_double (a : int) : double := Double.of_Z a.
End Int.

(** What [distanceFrom] needs from [CoordinateType]: the three binary
    operators, and [std::sqrt] applied to their result with the value
    converted to the return type [double].  [<cmath>] has one overload of
    [std::sqrt] per floating type and sends an integer argument to the
    [double] one. *)
Class Arithmetic (T : Type) : Type := {
  sub : T -> T -> T;
  mul : T -> T -> T;
  add : T -> T -> T;
  std_sqrt : T -> double
}.

#[global] Instance Arithmetic_double : Arithmetic double := {|
  sub := Double.sub; mul := Double.mul; add := Double.add;
  std_sqrt := Double.sqrt
|}.

#[global] Instance Arithmetic_float : Arithmetic float := {|
  sub := Float.sub; mul := Float.mul; add := Float.add;
  std_sqrt := fun a => Float.to_double (Float.sqrt a)
|}.

#[global] Instance Arithmetic_int : Arithmetic int := {|
  sub := Int.sub; mul := Int.mul; add := Int.add;
  std_sqrt := fun a => Double.sqrt (Int.to_double a)
|}.

Declare Scope coord_scope.
Delimit Scope coord_scope with coord.
Infix "-" := sub : coord_scope.
Infix "*" := mul : coord_scope.
Infix "+" := add : coord_scope.

(* ===================================================================== *)
(** * The class template [Point] *)
(* ===================================================================== *)

(** The three data members. *)
Record Point (T : Type) : Type := Build_Point { x_ : T; y_ : T; z_ : T }.

Arguments Build_Point {T} _ _ _.
Arguments x_ {T} _.
Arguments y_ {T} _.
Arguments z_ {T} _.

(** The constructor: the member initialiser list [x_{x}, y_{y}, z_{z}] and an
    empty body. *)
Definition Point_new {T : Type} (x y z : T) : Point T :=
  {| x_ := x; y_ := y; z_ := z |}.

Section Members.
Context {T : Type}.

(** The const accessors, read on the value of the object. *)
Definition x (this : Point T) : T := x_ this.
Definition y (this : Point T) : T := y_ this.
Definition z (this : Point T) : T := z_ this.

Context `{Arithmetic T}.

Definition distanceFrom (this other : Point T) : double :=
  std_sqrt
    ((x_ this - x_ other) * (x_ this - x_ other)
     + (y_ this - y_ other) * (y_ this - y_ other)
     + (z_ this - z_ other) * (z_ this - z_ other))%coord.

(** ** The distance as the specification words it

    Per axis: subtract the corresponding coordinates and square the
    difference as its product with itself; sum the three squares; take the
    square root, reported as a [double]. *)
Definition squared_difference (axis : Point T -> T) (p q : Point T) : T :=
  let d := (axis p - axis q)%coord in (d * d)%coord.

Definition sum_of_three (a b c : T) : T := (a + b + c)%coord.

Definition euclidean_distance (p q : Point T) : double :=
  std_sqrt (sum_of_three (squared_difference x p q)
                         (squared_difference y p q)
                         (squared_difference z p q)).

End Members.

(** ** Inputs on which the arithmetic stays exact or finite *)

(** All three coordinates of a floating-point point are finite. *)
Definition finite_point (p : Point spec_float) : bool :=
  IEEE.is_finite (x_ p) && IEEE.is_finite (y_ p) && IEEE.is_finite (z_ p).

(** The sum of the three squared differences over the integers, without any
    wrap-around. *)
Definition exact_sum_of_squares (p q : Point int) : Z :=
  (x_ p - x_ q) * (x_ p - x_ q)
  + (y_ p - y_ q) * (y_ p - y_ q)
  + (z_ p - z_ q) * (z_ p - z_ q).

(** ** Coordinates on which a difference has no value *)

Definition is_infinite (f : spec_float) : bool :=
  match f with S754_infinity _ => true | _ => false end.

(** [a - b] is a NaN by the rules of the arithmetic: an operand is a NaN, or
    both are infinities of the same sign. *)
Definition undefined_difference (a b : spec_float) : bool :=
  match a, b with
  | S754_nan, _ | _, S754_nan => true
  | S754_infinity sa, S754_infinity sb => Bool.eqb sa sb
  | _, _ => false
  end.

Definition undefined_axis (p q : Point spec_float) : bool :=
  undefined_difference (x_ p) (x_ q)
  || undefined_difference (y_ p) (y_ q)
  || undefined_difference (z_ p) (z_ q).

Definition infinite_point (p : Point spec_float) : bool :=
  is_infinite (x_ p) || is_infinite (y_ p) || is_infinite (z_ p).

(** A NaN, or a value with a clear sign bit. *)
Definition clear (f : spec_float) : Prop :=
  IEEE.is_nan f = false -> IEEE.has_sign false f = true.

Section Root.
Variables prec emax : Z.

(** The root of the sum of the three squared differences. *)
Definition root (p q : Point spec_float) : spec_float :=
  SFsqrt prec emax
    (SFadd prec emax
       (SFadd prec emax
          (SFmul prec emax (SFsub prec emax (x_ p) (x_ q))
                           (SFsub prec emax (x_ p) (x_ q)))
          (SFmul prec emax (SFsub prec emax (y_ p) (y_ q))
                           (SFsub prec emax (y_ p) (y_ q))))
       (SFmul prec emax (SFsub prec emax (z_ p) (z_ q))
                        (SFsub prec emax (z_ p) (z_ q)))).

End Root.

(** ** Distances that are whole numbers *)

(** The integer a floating-point value stands for, when it is one:
    [m * 2^e] with [e >= 0], or with [e < 0] and [2^-e] dividing [m]. *)
Definition integer_value (f : spec_float) : option Z :=
  match f with
  | S754_zero _ => Some 0
  | S754_finite s m e =>
      if 0 <=? e then Some (cond_Zopp s (Z.pos m * 2 ^ e))
      else if Z.pos m mod 2 ^ (- e) =? 0
           then Some (cond_Zopp s (Z.pos m / 2 ^ (- e)))
           else None
  | _ => None
  end.

Definition is_zero (f : spec_float) : bool :=
  match f with S754_zero _ => true | _ => false end.

(** ** Integer-valued coordinates *)

(** The normal number of value [N] (or [-N]) in a format of [prec] bits: the
    mantissa has exactly [prec] bits. *)
Definition canonical (prec : Z) (s : bool) (N : positive) : spec_float :=
  S754_finite s
    (Z.to_pos (Z.pos N * 2 ^ (prec - Z.pos (digits2_pos N))))
    (Z.pos (digits2_pos N) - prec).

(** [f] is a finite number standing for the integer [z]. *)
Definition stands_for (z : Z) (f : spec_float) : Prop :=
  match f with
  | S754_finite s m e => e <= 0 /\ cond_Zopp s (Z.pos m) = z * 2 ^ (- e)
  | _ => False
  end.

(** The point whose coordinates are the conversions of three integers. *)
Definition integral {T : Type} (conv : Z -> T) (a : Point Z) : Point T :=
  Point_new (conv (x_ a)) (conv (y_ a)) (conv (z_ a)).

(** All three integers are below [2^k] in magnitude. *)
Definition magnitude_below (k : Z) (a : Point Z) : Prop :=
  Z.abs (x_ a) < 2 ^ k /\ Z.abs (y_ a) < 2 ^ k /\ Z.abs (z_ a) < 2 ^ k.

(* ===================================================================== *)
(** * Objects, references and member function calls *)
(* ===================================================================== *)

(** A [Point<T>] object lives at an address of the store.  A reference to a
    coordinate ([CoordinateType&]) names an object and one of its data
    members; reading and assigning through it act on that member of that
    object, so two references to the same member are aliases.  A computation
    fails ([None]) only when it uses an address that holds no object. *)

Module Objects.

Inductive member : Type := member_x | member_y | member_z.

Abbreviation addr := positive.

Record reference : Type := Ref { ref_object : addr; ref_member : member }.

Abbreviation store T := (gmap positive (Point T)).

Definition comp (T A : Type) : Type := store T -> option (A * store T).

Definition ret {T A : Type} (a : A) : comp T A := fun s => Some (a, s).

Definition bind {T A B : Type} (c : comp T A) (k : A -> comp T B) : comp T B :=
  fun s => match c s with
           | Some (a, s') => k a s'
           | None => None
           end.

Notation "'do' v <- c ; k" := (bind c (fun v => k))
  (at level 10, v name, c at level 100, k at level 200).

Section Store.
Context {T : Type}.

Definition object (a : addr) : comp T (Point T) :=
  fun s => match s !! a with
           | Some p => Some (p, s)
           | None => None
           end.

Definition select (m : member) (p : Point T) : T :=
  match m with
  | member_x => x_ p
  | member_y => y_ p
  | member_z => z_ p
  end.

Definition update (m : member) (v : T) (p : Point T) : Point T :=
  match m with
  | member_x => {| x_ := v; y_ := y_ p; z_ := z_ p |}
  | member_y => {| x_ := x_ p; y_ := v; z_ := z_ p |}
  | member_z => {| x_ := x_ p; y_ := y_ p; z_ := v |}
  end.

(** Reading through a reference. *)
Definition read (r : reference) : comp T T :=
  do p <- object (ref_object r); ret (select (ref_member r) p).

(** Assignment through a reference: [r = v]. *)
Definition assign (r : reference) (v : T) : comp T unit :=
  do p <- object (ref_object r);
  fun s => Some (tt, <[ref_object r := update (ref_member r) v p]> s).

(** A constructor call makes a new object. *)
Definition construct (x y z : T) : comp T addr :=
  fun s => let a := fresh (dom s) in Some (a, <[a := Point_new x y z]> s).

(** The const overloads [x() const], [y() const], [z() const], with the
    value read through the reference they return. *)
Definition get_x (this : addr) : comp T T := do p <- object this; ret (x p).
Definition get_y (this : addr) : comp T T := do p <- object this; ret (y p).
Definition get_z (this : addr) : comp T T := do p <- object this; ret (z p).

(** The non-const overloads [x()], [y()], [z()]: each returns a reference
    to the data member itself. *)
Definition ref_x (this : addr) : comp T reference :=
  do _p <- object this; ret (Ref this member_x).
Definition ref_y (this : addr) : comp T reference :=
  do _p <- object this; ret (Ref this member_y).
Definition ref_z (this : addr) : comp T reference :=
  do _p <- object this; ret (Ref this member_z).

(** A call [this.distanceFrom(other)]: both objects are read, neither is
    written. *)
Definition call_distanceFrom `{Arithmetic T} (this other : addr) : comp T double :=
  do p <- object this;
  do q <- object other;
  ret (distanceFrom p q).

(** The accessor pair of a data member. *)
Definition const_accessor (m : member) : addr -> comp T T :=
  match m with
  | member_x => get_x
  | member_y => get_y
  | member_z => get_z
  end.

Definition accessor (m : member) : addr -> comp T reference :=
  match m with
  | member_x => ref_x
  | member_y => ref_y
  | member_z => ref_z
  end.

End Store.

End Objects.

(* ===================================================================== *)
(** * Facts about the floating-point operations *)
(* ===================================================================== *)

Module IEEE_facts.
Import IEEE.

Section Format.
Variables prec emax : Z.

(** ** Shifting keeps a mantissa non-negative *)

Lemma shr_1_nonneg mrs : 0 <= shr_m mrs -> 0 <= shr_m (shr_1 mrs).
Proof.
  destruct mrs as [m r s]; simpl.
  destruct m as [|[p|p|]|[p|p|]]; simpl; lia.
Qed.

Lemma iter_shr_1_nonneg n : forall mrs,
  0 <= shr_m mrs -> 0 <= shr_m (SpecFloat.iter_pos shr_1 n mrs).
Proof.
  induction n as [n IH|n IH|]; intros mrs H; simpl.
  - apply IH, IH, shr_1_nonneg, H.
  - apply IH, IH, H.
  - apply shr_1_nonneg, H.
Qed.

Lemma shr_nonneg mrs e n : 0 <= shr_m mrs -> 0 <= shr_m (fst (shr mrs e n)).
Proof.
  intros H. destruct n; simpl; auto using iter_shr_1_nonneg.
Qed.

Lemma shr_record_of_loc_m m l : shr_m (shr_record_of_loc m l) = m.
Proof. destruct l as [|[]]; reflexivity. Qed.

Lemma shr_fexp_nonneg m e l :
  0 <= m -> 0 <= shr_m (fst (shr_fexp prec emax m e l)).
Proof.
  intros H. unfold shr_fexp. apply shr_nonneg.
  rewrite shr_record_of_loc_m. exact H.
Qed.

Lemma round_nearest_even_nonneg m l : 0 <= m -> 0 <= round_nearest_even m l.
Proof.
  intros H. destruct l as [|[]]; simpl; try lia.
  destruct (Z.even m); lia.
Qed.

(** ** Rounding gives the sign it is asked for *)

Lemma binary_round_aux_sign sx mx ex lx :
  0 <= mx -> has_sign sx (binary_round_aux prec emax sx mx ex lx) = true.
Proof.
  intros H. unfold binary_round_aux.
  pose proof (shr_fexp_nonneg mx ex lx H) as H1.
  destruct (shr_fexp prec emax mx ex lx) as [mrs' e']. simpl in H1.
  pose proof (round_nearest_even_nonneg _ (loc_of_shr_record mrs') H1) as H2.
  pose proof (shr_fexp_nonneg _ e' loc_Exact H2) as H3.
  destruct (shr_fexp prec emax _ e' loc_Exact) as [mrs'' e'']. simpl in H3.
  destruct (shr_m mrs'') as [|m|m]; simpl.
  - apply eqb_reflx.
  - destruct (e'' <=? emax - prec); simpl; apply eqb_reflx.
  - lia.
Qed.

Lemma binary_round_sign sx mx ex :
  has_sign sx (binary_round prec emax sx mx ex) = true.
Proof.
  unfold binary_round.
  destruct (shl_align mx ex _) as [mz ez].
  apply binary_round_aux_sign. lia.
Qed.

Lemma binary_normalize_not_nan m e szero :
  is_nan (binary_normalize prec emax m e szero) = false.
Proof.
  destruct m as [|m|m]; simpl; auto.
  - pose proof (binary_round_sign false m e) as H.
    destruct (binary_round prec emax false m e); simpl in *; congruence.
  - pose proof (binary_round_sign true m e) as H.
    destruct (binary_round prec emax true m e); simpl in *; congruence.
Qed.

Lemma binary_normalize_nonneg m e :
  0 <= m -> has_sign false (binary_normalize prec emax m e false) = true.
Proof.
  intros H. destruct m as [|m|m]; simpl.
  - reflexivity.
  - apply binary_round_sign.
  - lia.
Qed.

(** ** Rounding does not look at the sign *)

Lemma binary_round_aux_opp sx mx ex lx :
  binary_round_aux prec emax (negb sx) mx ex lx
  = SFopp (binary_round_aux prec emax sx mx ex lx).
Proof.
  unfold binary_round_aux.
  destruct (shr_fexp prec emax mx ex lx) as [mrs' e'].
  destruct (shr_fexp prec emax _ e' loc_Exact) as [mrs'' e''].
  destruct (shr_m mrs''); simpl; auto.
  destruct (e'' <=? emax - prec); reflexivity.
Qed.

Lemma binary_round_opp sx mx ex :
  binary_round prec emax (negb sx) mx ex
  = SFopp (binary_round prec emax sx mx ex).
Proof.
  unfold binary_round.
  destruct (shl_align mx ex _) as [mz ez].
  apply binary_round_aux_opp.
Qed.

Lemma binary_normalize_opp m e :
  binary_normalize prec emax (- m) e false = binary_normalize prec emax m e false
  \/ binary_normalize prec emax (- m) e false
     = SFopp (binary_normalize prec emax m e false).
Proof.
  destruct m as [|m|m]; simpl.
  - left; reflexivity.
  - right. apply (binary_round_opp false).
  - right. rewrite <- (binary_round_opp true). reflexivity.
Qed.

(** ** The operations [distanceFrom] uses *)

Abbreviation fsub := (SFsub prec emax).
Abbreviation fmul := (SFmul prec emax).
Abbreviation fadd := (SFadd prec emax).
Abbreviation fsqrt := (SFsqrt prec emax).

Lemma has_sign_not_nan s f : has_sign s f = true -> is_nan f = false.
Proof. destruct f; simpl; congruence. Qed.

Lemma has_sign_convert s f : has_sign s f = true -> has_sign s (IEEE.convert prec emax f) = true.
Proof.
  destruct f as [s'|s'| |s' m e]; simpl; auto.
  intros H. apply eqb_prop in H. subst s'. apply binary_round_sign.
Qed.

(** [x - x] is [+0] for every finite [x], whatever its sign. *)
Lemma SFsub_diag x : is_finite x = true -> fsub x x = pos_zero.
Proof.
  destruct x as [[]| | |s m e]; simpl; try reflexivity; try discriminate.
  intros _. unfold shl_align. rewrite Z.min_id, Z.sub_diag. simpl.
  reflexivity.
Qed.

(** The difference of two finite values is never a NaN (it may overflow to
    an infinity). *)
Lemma SFsub_finite_not_nan x y :
  is_finite x = true -> is_finite y = true -> is_nan (fsub x y) = false.
Proof.
  destruct x as [sx| | |sx mx ex], y as [sy| | |sy my ey];
    simpl; try discriminate; intros _ _; try reflexivity.
  - destruct sx, sy; reflexivity.
  - apply binary_normalize_not_nan.
Qed.

(** Swapping the operands of a subtraction changes at most the sign. *)
Lemma SFsub_swap x y : fsub y x = fsub x y \/ fsub y x = SFopp (fsub x y).
Proof.
  destruct x as [sx|sx| |sx mx ex], y as [sy|sy| |sy my ey]; simpl;
    try (left; reflexivity); try (right; reflexivity);
    try (destruct sx, sy; auto; fail).
  rewrite (Z.min_comm ey ex).
  set (a := cond_Zopp sx _). set (b := cond_Zopp sy _).
  replace (b - a) with (- (a - b)) by lia.
  apply binary_normalize_opp.
Qed.

Lemma SFmul_opp_opp u : fmul (SFopp u) (SFopp u) = fmul u u.
Proof. destruct u as [[]|[]| |[] m e]; reflexivity. Qed.

(** The square of a difference does not depend on the order of the
    operands. *)
Lemma SFmul_sub_swap x y :
  fmul (fsub y x) (fsub y x) = fmul (fsub x y) (fsub x y).
Proof.
  destruct (SFsub_swap x y) as [-> | ->]; auto using SFmul_opp_opp.
Qed.

(** A square is never negative. *)
Lemma SFmul_self_sign u : is_nan u = false -> has_sign false (fmul u u) = true.
Proof.
  destruct u as [[]|[]| |s m e]; simpl; try reflexivity; try discriminate.
  intros _. rewrite xorb_nilpotent. apply binary_round_aux_sign. lia.
Qed.

Lemma SFadd_nonneg a b :
  has_sign false a = true -> has_sign false b = true ->
  has_sign false (fadd a b) = true.
Proof.
  destruct a as [[]|[]| |[] ma ea], b as [[]|[]| |[] mb eb];
    simpl; try discriminate; intros _ _; try reflexivity.
  apply binary_round_sign.
Qed.

Lemma sqrtrem_nonneg m : 0 <= fst (Z.sqrtrem m).
Proof.
  destruct m as [|p|p]; simpl; try lia.
  destruct (Pos.sqrtrem p) as [q [|r|]]; simpl; lia.
Qed.

Lemma SFsqrt_nonneg a : has_sign false a = true -> has_sign false (fsqrt a) = true.
Proof.
  destruct a as [[]|[]| |[] m e]; simpl; try discriminate; intros _;
    try reflexivity.
  unfold SFsqrt_core_binary.
  pose proof (sqrtrem_nonneg
    match e - 2 * Z.min (fexp prec emax (Z.div2 (Z.pos (digits2_pos m) + e + 1)))
                        (Z.div2 e) with
    | 0 => Z.pos m
    | Z.pos _ => Z.shiftl (Z.pos m)
        (e - 2 * Z.min (fexp prec emax (Z.div2 (Z.pos (digits2_pos m) + e + 1)))
                       (Z.div2 e))
    | Z.neg _ => 0
    end) as Hq.
  simpl Zdigits2.
  destruct (Z.sqrtrem _) as [q r]. simpl in Hq.
  apply binary_round_aux_sign. exact Hq.
Qed.

Lemma has_sign_leb d : has_sign false d = true -> SFleb pos_zero d = true.
Proof. destruct d as [[]|[]| |[] m e]; cbv; congruence. Qed.

(** A square root is a NaN or a value with a clear sign bit, except that
    the root of [-0] is [-0]; under the IEEE comparison every result that
    is not a NaN is at least zero. *)
Lemma SFsqrt_nan_or_nonneg a :
  is_nan (fsqrt a) = true \/ SFleb pos_zero (fsqrt a) = true.
Proof.
  destruct a as [s|[]| |[] m e]; try (cbv; auto; fail).
  right. apply has_sign_leb, SFsqrt_nonneg. reflexivity.
Qed.

Lemma convert_nan_or_nonneg d :
  is_nan d = true \/ SFleb pos_zero d = true ->
  is_nan (IEEE.convert prec emax d) = true \/ SFleb pos_zero (IEEE.convert prec emax d) = true.
Proof.
  destruct d as [s|s| |s m e]; simpl; auto.
  intros [H|H]; [discriminate|]. right.
  destruct s; [discriminate|].
  apply has_sign_leb, binary_round_sign.
Qed.

End Format.

End IEEE_facts.

(* ===================================================================== *)
(** * Facts about 32-bit integer arithmetic *)
(* ===================================================================== *)

Module Int_facts.

Lemma wrap_mod n : Int.wrap n mod 2 ^ 32 = n mod 2 ^ 32.
Proof.
  unfold Int.wrap. rewrite Zminus_mod_idemp_l. f_equal. lia.
Qed.

Lemma wrap_eq a b : a mod 2 ^ 32 = b mod 2 ^ 32 -> Int.wrap a = Int.wrap b.
Proof.
  intros E. unfold Int.wrap.
  rewrite <- (Zplus_mod_idemp_l a), <- (Zplus_mod_idemp_l b), E. reflexivity.
Qed.

Lemma wrap_small n : Int.in_range n = true -> Int.wrap n = n.
Proof.
  unfold Int.in_range, Int.INT_MIN, Int.INT_MAX, Int.wrap. intros R.
  apply andb_true_iff in R. destruct R as [Lo Hi].
  apply Z.leb_le in Lo, Hi. rewrite Z.mod_small; lia.
Qed.

Lemma wrap_in_range n : Int.in_range (Int.wrap n) = true.
Proof.
  unfold Int.in_range, Int.INT_MIN, Int.INT_MAX, Int.wrap.
  pose proof (Z.mod_pos_bound (n + 2 ^ 31) (2 ^ 32) eq_refl).
  apply andb_true_iff. split; apply Z.leb_le; lia.
Qed.

Lemma mul_wrap_wrap a b : Int.mul (Int.wrap a) (Int.wrap b) = Int.wrap (a * b).
Proof.
  unfold Int.mul. apply wrap_eq.
  rewrite Zmult_mod, !wrap_mod, <- Zmult_mod. reflexivity.
Qed.

Lemma sub_diag a : Int.sub a a = 0.
Proof. unfold Int.sub. rewrite Z.sub_diag. reflexivity. Qed.

(** The square of a difference does not depend on the order of the operands,
    wrapped or not. *)
Lemma mul_sub_swap a b :
  Int.mul (Int.sub b a) (Int.sub b a) = Int.mul (Int.sub a b) (Int.sub a b).
Proof.
  unfold Int.sub. rewrite !mul_wrap_wrap. f_equal. ring.
Qed.

End Int_facts.

(* ===================================================================== *)
(** * Construction and const accessors *)
(* ===================================================================== *)

Section Accessors.
Context {T : Type}.

Lemma x_Point_new (a b c : T) : x (Point_new a b c) = a.
Proof. reflexivity. Qed.

Lemma y_Point_new (a b c : T) : y (Point_new a b c) = b.
Proof. reflexivity. Qed.

Lemma z_Point_new (a b c : T) : z (Point_new a b c) = c.
Proof. reflexivity. Qed.

Lemma Point_eta (p : Point T) : Point_new (x p) (y p) (z p) = p.
Proof. destruct p; reflexivity. Qed.

End Accessors.

(* ===================================================================== *)
(** * Writes through the non-const accessors *)
(* ===================================================================== *)

Module Objects_facts.
Import Objects.

Section Store.
Context {T : Type}.
Implicit Types (s : store T) (p q : Point T) (this other : addr) (v : T).
Implicit Types (m : member) (r : reference).

Lemma object_live s this p : s !! this = Some p -> object this s = Some (p, s).
Proof. intros E. unfold object. rewrite E. reflexivity. Qed.

Lemma select_update_same m v p : select m (update m v p) = v.
Proof. destruct m; reflexivity. Qed.

Lemma select_update_other m m' v p : m' <> m -> select m' (update m v p) = select m' p.
Proof. destruct m, m'; intros N; try reflexivity; contradiction. Qed.

Lemma accessor_live s this p m :
  s !! this = Some p -> accessor m this s = Some (Ref this m, s).
Proof.
  intros E. destruct m; unfold accessor, ref_x, ref_y, ref_z, bind;
    rewrite (object_live _ _ _ E); reflexivity.
Qed.

Lemma const_accessor_live s this p m :
  s !! this = Some p -> const_accessor m this s = Some (select m p, s).
Proof.
  intros E. destruct m; unfold const_accessor, get_x, get_y, get_z, bind;
    rewrite (object_live _ _ _ E); reflexivity.
Qed.

Lemma read_live s r p :
  s !! ref_object r = Some p -> read r s = Some (select (ref_member r) p, s).
Proof.
  intros E. unfold read, bind. rewrite (object_live _ _ _ E). reflexivity.
Qed.

Lemma assign_live s r v p :
  s !! ref_object r = Some p ->
  assign r v s = Some (tt, <[ref_object r := update (ref_member r) v p]> s).
Proof.
  intros E. unfold assign, bind. rewrite (object_live _ _ _ E). reflexivity.
Qed.

(** Assigning through the reference [m()] returns: the object's value
    becomes [update m v p] and no other object changes. *)
Lemma write_through_accessor s this p m v :
  s !! this = Some p ->
  (do r <- accessor m this; assign r v) s = Some (tt, <[this := update m v p]> s).
Proof.
  intros E. unfold bind at 1. rewrite (accessor_live _ _ _ m E).
  apply (assign_live s (Ref this m) v p E).
Qed.

Lemma call_distanceFrom_live `{Arithmetic T} s this other p q :
  s !! this = Some p -> s !! other = Some q ->
  call_distanceFrom this other s = Some (distanceFrom p q, s).
Proof.
  intros Ep Eq. unfold call_distanceFrom, bind.
  rewrite (object_live _ _ _ Ep), (object_live _ _ _ Eq). reflexivity.
Qed.

End Store.

End Objects_facts.

(* ===================================================================== *)
(** * Properties of the accessors *)
(* ===================================================================== *)

Import Objects.

(** C2, accessor round-trip: for every type [T] and all values [a], [b], [c],
    the point constructed from [(a, b, c)] reads back [a], [b] and [c] through
    [x()], [y()] and [z()].  Construction takes any three values and cannot
    fail; in a store, the constructor call followed by the three reads
    returns [(a, b, c)] and leaves exactly the new object behind. *)
Theorem accessor_round_trip (T : Type) (a b c : T) :
  (x (Point_new a b c), y (Point_new a b c), z (Point_new a b c)) = (a, b, c)
  /\ forall s : store T,
       (do p <- construct a b c;
        do vx <- get_x p; do vy <- get_y p; do vz <- get_z p;
        ret (vx, vy, vz)) s
       = Some ((a, b, c), <[fresh (dom s) := Point_new a b c]> s).
Proof.
  split; [reflexivity|].
  intros s.
  cbv [bind construct get_x get_y get_z object ret].
  repeat (rewrite lookup_insert_eq; cbv beta iota). reflexivity.
Qed.

(** C3, mutation isolation: in every store, for a live object [this] with
    value [p], every data member [m] and every value [v], assigning [v]
    through the reference returned by the non-const accessor of [m] and then
    reading any other coordinate [m'] returns the value [m'] had before; the
    store differs from the old one only in the object [this]. *)
Theorem mutation_isolation (T : Type) (s : store T) (this : addr) (p : Point T)
    (v : T) (m m' : member) :
  s !! this = Some p ->
  m' <> m ->
  (do r <- accessor m this; do _u <- assign r v; const_accessor m' this) s
  = Some (select m' p, <[this := update m v p]> s).
Proof.
  intros E N.
  unfold bind at 1. rewrite (Objects_facts.accessor_live _ _ _ m E).
  unfold bind at 1. rewrite (Objects_facts.assign_live s (Ref this m) v p E).
  cbn [ref_object ref_member].
  rewrite (Objects_facts.const_accessor_live _ this (update m v p) m')
    by apply lookup_insert_eq.
  rewrite Objects_facts.select_update_other by exact N. reflexivity.
Qed.

Lemma mutation_isolation_witness :
  let p : Point int := Point_new 1 2 3 in
  let s : store int := {[ 1%positive := p ]} in
  s !! 1%positive = Some p
  /\ member_y <> member_x
  /\ (do r <- ref_x 1%positive; do _u <- assign r 9; get_y 1%positive) s
     = Some (2, <[ 1%positive := @Point_new int 9 2 3 ]> s).
Proof.
  intros p s.
  assert (E : s !! 1%positive = Some p) by reflexivity.
  assert (N : member_y <> member_x) by discriminate.
  split; [exact E|]. split; [exact N|].
  exact (mutation_isolation int s 1%positive p 9 member_x member_y E N).
Defined.

(** C9, write-read round-trip: in every store, for a live object [this] with
    value [p], every data member [m] and every value [v], assigning [v]
    through the reference returned by the non-const accessor of [m] and then
    reading the same coordinate, through the const accessor or through the
    reference itself, returns [v]; the reference denotes the stored
    coordinate, so a later [distanceFrom] between [this] and another live
    object [other], in either direction, is computed from the new value. *)
Theorem write_read_round_trip (T : Type) (A : Arithmetic T) (s : store T)
    (this : addr) (p : Point T) (v : T) (m : member) :
  s !! this = Some p ->
  let s' := <[this := update m v p]> s in
  (do r <- accessor m this; do _u <- assign r v; const_accessor m this) s
  = Some (v, s')
  /\ (do r <- accessor m this; do _u <- assign r v; read r) s = Some (v, s')
  /\ select m (update m v p) = v
  /\ forall (other : addr) (q : Point T),
       other <> this -> s !! other = Some q ->
       (do r <- accessor m this; do _u <- assign r v;
        call_distanceFrom this other) s
       = Some (distanceFrom (update m v p) q, s')
       /\ (do r <- accessor m this; do _u <- assign r v;
           call_distanceFrom other this) s
          = Some (distanceFrom q (update m v p), s').
Proof.
  intros E s'.
  assert (E' : s' !! this = Some (update m v p)) by apply lookup_insert_eq.
  assert (W : forall B (k : comp T B),
             (do r <- accessor m this; do _u <- assign r v; k) s = k s').
  { intros B k. unfold bind at 1.
    rewrite (Objects_facts.accessor_live _ _ _ m E).
    unfold bind at 1.
    rewrite (Objects_facts.assign_live s (Ref this m) v p E). reflexivity. }
  repeat split.
  - rewrite W, (Objects_facts.const_accessor_live _ _ _ m E').
    rewrite Objects_facts.select_update_same. reflexivity.
  - unfold bind at 1. rewrite (Objects_facts.accessor_live _ _ _ m E).
    unfold bind at 1.
    rewrite (Objects_facts.assign_live s (Ref this m) v p E).
    cbn [ref_object ref_member]. fold s'.
    rewrite (Objects_facts.read_live s' (Ref this m) _ E').
    cbn [ref_member]. rewrite Objects_facts.select_update_same. reflexivity.
  - apply Objects_facts.select_update_same.
  - rewrite W. apply Objects_facts.call_distanceFrom_live; [exact E'|].
    unfold s'. rewrite lookup_insert_ne by congruence. assumption.
  - rewrite W. apply Objects_facts.call_distanceFrom_live; [|exact E'].
    unfold s'. rewrite lookup_insert_ne by congruence. assumption.
Qed.

Lemma write_read_round_trip_witness :
  let p : Point int := Point_new 1 2 3 in
  let s : store int := {[ 1%positive := p ]} in
  s !! 1%positive = Some p
  /\ (do r <- ref_z 1%positive; do _u <- assign r 7; get_z 1%positive) s
     = Some (7, <[ 1%positive := @Point_new int 1 2 7 ]> s).
Proof.
  intros p s.
  assert (E : s !! 1%positive = Some p) by reflexivity.
  split; [exact E|].
  exact (proj1 (write_read_round_trip int _ s 1%positive p 7 member_z E)).
Defined.

(** C7, [distanceFrom] has no side effects: in every store in which [this]
    and [other] are live objects (the same object or two), the call
    [this.distanceFrom(other)] returns the distance of their values and the
    store it leaves is the store it started from, so both objects read back
    unchanged. *)
Theorem distanceFrom_no_side_effects (T : Type) (A : Arithmetic T)
    (s : store T) (this other : addr) (p q : Point T) :
  s !! this = Some p ->
  s !! other = Some q ->
  call_distanceFrom this other s = Some (distanceFrom p q, s)
  /\ (do _d <- call_distanceFrom this other;
      do p' <- object this; do q' <- object other; ret (p', q')) s
     = Some ((p, q), s).
Proof.
  intros Ep Eq.
  pose proof (Objects_facts.call_distanceFrom_live s this other p q Ep Eq) as C.
  split; [exact C|].
  unfold bind at 1. rewrite C.
  unfold bind at 1. rewrite (Objects_facts.object_live _ _ _ Ep).
  unfold bind at 1. rewrite (Objects_facts.object_live _ _ _ Eq).
  reflexivity.
Qed.

Lemma distanceFrom_no_side_effects_witness :
  let p : Point int := Point_new 0 0 0 in
  let q : Point int := Point_new 3 4 0 in
  let s : store int := <[ 2%positive := q ]> {[ 1%positive := p ]} in
  s !! 1%positive = Some p /\ s !! 2%positive = Some q
  /\ call_distanceFrom 1%positive 2%positive s = Some (Double.of_Z 5, s).
Proof.
  intros p q s.
  assert (Ep : s !! 1%positive = Some p) by reflexivity.
  assert (Eq : s !! 2%positive = Some q) by reflexivity.
  split; [exact Ep|]. split; [exact Eq|].
  exact (proj1 (distanceFrom_no_side_effects int _ s 1%positive 2%positive
                  p q Ep Eq)).
Defined.

(* ===================================================================== *)
(** * Properties of [distanceFrom] *)
(* ===================================================================== *)

Lemma finite_point_inv (p : Point spec_float) :
  finite_point p = true ->
  IEEE.is_finite (x_ p) = true /\ IEEE.is_finite (y_ p) = true
  /\ IEEE.is_finite (z_ p) = true.
Proof.
  unfold finite_point. intros F.
  apply andb_true_iff in F. destruct F as [F Fz].
  apply andb_true_iff in F. destruct F as [Fx Fy]. auto.
Qed.

Section Generic.
Context {T : Type} `{Arithmetic T}.

(** The two word-for-word readings of the computation agree. *)
Lemma distanceFrom_unfold (p q : Point T) :
  distanceFrom p q = euclidean_distance p q.
Proof. reflexivity. Qed.

(** Symmetry needs one law of the coordinate arithmetic only. *)
Hypothesis square_swap :
  forall a b : T, ((b - a) * (b - a))%coord = ((a - b) * (a - b))%coord.

Lemma distanceFrom_swap (p q : Point T) : distanceFrom p q = distanceFrom q p.
Proof.
  unfold distanceFrom.
  rewrite (square_swap (x_ p) (x_ q)), (square_swap (y_ p) (y_ q)),
          (square_swap (z_ p) (z_ q)).
  reflexivity.
Qed.

End Generic.

(** Below the overflow bound, [distanceFrom] on [Point<int>] is the square
    root of the exact sum of squares. *)
Lemma distanceFrom_int_exact (p q : Point int) :
  exact_sum_of_squares p q <= Int.INT_MAX ->
  distanceFrom p q = Double.sqrt (Double.of_Z (exact_sum_of_squares p q)).
Proof.
  unfold exact_sum_of_squares, Int.INT_MAX. intros B.
  destruct p as [a b c], q as [a' b' c']. cbn [x_ y_ z_] in *.
  unfold distanceFrom. cbn [x_ y_ z_ std_sqrt sub mul add Arithmetic_int].
  unfold Int.to_double. f_equal. f_equal.
  assert (R : forall n, - 2147483648 <= n <= 2147483647 -> Int.wrap n = n).
  { intros n Hn. apply Int_facts.wrap_small.
    unfold Int.in_range, Int.INT_MIN, Int.INT_MAX.
    apply andb_true_iff. split; apply Z.leb_le; lia. }
  assert (S : forall d, d * d <= 2147483647 -> - 46340 <= d <= 46340).
  { intros d Hd. split; nia. }
  set (dx := a - a') in *. set (dy := b - b') in *. set (dz := c - c') in *.
  pose proof (Z.square_nonneg dx) as Px.
  pose proof (Z.square_nonneg dy) as Py.
  pose proof (Z.square_nonneg dz) as Pz.
  pose proof (S dx ltac:(lia)) as Bx.
  pose proof (S dy ltac:(lia)) as By.
  pose proof (S dz ltac:(lia)) as Bz.
  unfold Int.add, Int.mul, Int.sub. fold dx dy dz.
  rewrite (R dx), (R dy), (R dz) by lia.
  rewrite (R (dx * dx)), (R (dy * dy)), (R (dz * dz)) by lia.
  rewrite (R (dx * dx + dy * dy)) by lia.
  apply R. lia.
Qed.

Section Floating.
Variables prec emax : Z.

Lemma square_difference_sign (a b : spec_float) :
  IEEE.is_finite a = true -> IEEE.is_finite b = true ->
  IEEE.has_sign false
    (SFmul prec emax (SFsub prec emax a b) (SFsub prec emax a b)) = true.
Proof.
  intros Fa Fb.
  apply IEEE_facts.SFmul_self_sign, IEEE_facts.SFsub_finite_not_nan; assumption.
Qed.

(** The root of the sum of the three squares, in the format. *)
Lemma sqrt_sum_squares_sign (p q : Point spec_float) :
  finite_point p = true -> finite_point q = true ->
  IEEE.has_sign false
    (SFsqrt prec emax
       (SFadd prec emax
          (SFadd prec emax
             (SFmul prec emax (SFsub prec emax (x_ p) (x_ q))
                              (SFsub prec emax (x_ p) (x_ q)))
             (SFmul prec emax (SFsub prec emax (y_ p) (y_ q))
                              (SFsub prec emax (y_ p) (y_ q))))
          (SFmul prec emax (SFsub prec emax (z_ p) (z_ q))
                           (SFsub prec emax (z_ p) (z_ q))))) = true.
Proof.
  intros Fp Fq.
  destruct (finite_point_inv p Fp) as (Fpx & Fpy & Fpz).
  destruct (finite_point_inv q Fq) as (Fqx & Fqy & Fqz).
  apply IEEE_facts.SFsqrt_nonneg.
  repeat apply IEEE_facts.SFadd_nonneg;
    apply square_difference_sign; assumption.
Qed.

Lemma sqrt_sum_squares_self (p : Point spec_float) :
  finite_point p = true ->
  SFsqrt prec emax
    (SFadd prec emax
       (SFadd prec emax
          (SFmul prec emax (SFsub prec emax (x_ p) (x_ p))
                           (SFsub prec emax (x_ p) (x_ p)))
          (SFmul prec emax (SFsub prec emax (y_ p) (y_ p))
                           (SFsub prec emax (y_ p) (y_ p))))
       (SFmul prec emax (SFsub prec emax (z_ p) (z_ p))
                        (SFsub prec emax (z_ p) (z_ p))))
  = IEEE.pos_zero.
Proof.
  intros Fp. destruct (finite_point_inv p Fp) as (Fx & Fy & Fz).
  rewrite !IEEE_facts.SFsub_diag by assumption. reflexivity.
Qed.

End Floating.

(** The comparison [d == d] fails on a NaN and only there. *)
Lemma SFeqb_same (d : spec_float) : SFeqb d d = negb (IEEE.is_nan d).
Proof.
  destruct d as [s|[]| |[] m e]; try reflexivity;
    unfold SFeqb, SFcompare; rewrite Z.compare_refl;
    change (Pos.compare_cont Eq m m) with (Pos.compare m m);
    rewrite Pos.compare_refl; reflexivity.
Qed.

Lemma distanceFrom_finite_not_nan :
  (forall p q : Point double,
     finite_point p = true -> finite_point q = true ->
     IEEE.is_nan (distanceFrom p q) = false)
  /\ (forall p q : Point float,
        finite_point p = true -> finite_point q = true ->
        IEEE.is_nan (distanceFrom p q) = false)
  /\ (forall p q : Point int,
        exact_sum_of_squares p q <= Int.INT_MAX ->
        IEEE.is_nan (distanceFrom p q) = false).
Proof.
  repeat split; intros p q.
  - intros Fp Fq. apply (IEEE_facts.has_sign_not_nan false).
    apply (sqrt_sum_squares_sign Double.prec Double.emax p q Fp Fq).
  - intros Fp Fq. apply (IEEE_facts.has_sign_not_nan false).
    apply IEEE_facts.has_sign_convert.
    apply (sqrt_sum_squares_sign Float.prec Float.emax p q Fp Fq).
  - intros B. rewrite (distanceFrom_int_exact p q B).
    apply (IEEE_facts.has_sign_not_nan false), IEEE_facts.SFsqrt_nonneg.
    apply IEEE_facts.binary_normalize_nonneg.
    unfold exact_sum_of_squares.
    pose proof (Z.square_nonneg (x_ p - x_ q)).
    pose proof (Z.square_nonneg (y_ p - y_ q)).
    pose proof (Z.square_nonneg (z_ p - z_ q)). lia.
Qed.

(** C5 as stated fails: two [Point<double>] that share an infinite
    coordinate are at distance NaN in both directions, and the comparison
    [p.distanceFrom(q) == q.distanceFrom(p)] of a NaN with a NaN is false. *)
Lemma distanceFrom_symmetric_nan_not_equal :
  let p : Point double :=
    Point_new (S754_infinity false) (Double.of_Z 0) (Double.of_Z 0) in
  let q : Point double :=
    Point_new (S754_infinity false) (Double.of_Z 1) (Double.of_Z 0) in
  distanceFrom p q = S754_nan
  /\ distanceFrom q p = S754_nan
  /\ SFeqb (distanceFrom p q) (distanceFrom q p) = false.
Proof. vm_compute. repeat split. Qed.

(** C5, symmetry, amended: [p.distanceFrom(q) == q.distanceFrom(p)] holds
    for all points of [Point<double>] and of [Point<float>] whose coordinates
    are all finite, and for all points of [Point<int>] whose exact sum of
    squared differences is at most [INT_MAX].  For every pair of points of
    the three types the two calls return the same [double], with no
    tolerance needed, and the comparison is true exactly when that value is
    not a NaN. *)
Theorem distanceFrom_symmetric :
  (forall p q : Point double,
     finite_point p = true -> finite_point q = true ->
     SFeqb (distanceFrom p q) (distanceFrom q p) = true)
  /\ (forall p q : Point float,
        finite_point p = true -> finite_point q = true ->
        SFeqb (distanceFrom p q) (distanceFrom q p) = true)
  /\ (forall p q : Point int,
        exact_sum_of_squares p q <= Int.INT_MAX ->
        SFeqb (distanceFrom p q) (distanceFrom q p) = true)
  /\ (forall p q : Point double,
        distanceFrom p q = distanceFrom q p
        /\ SFeqb (distanceFrom p q) (distanceFrom q p)
           = negb (IEEE.is_nan (distanceFrom p q)))
  /\ (forall p q : Point float,
        distanceFrom p q = distanceFrom q p
        /\ SFeqb (distanceFrom p q) (distanceFrom q p)
           = negb (IEEE.is_nan (distanceFrom p q)))
  /\ (forall p q : Point int,
        distanceFrom p q = distanceFrom q p
        /\ SFeqb (distanceFrom p q) (distanceFrom q p)
           = negb (IEEE.is_nan (distanceFrom p q))).
Proof.
  assert (Sd : forall p q : Point double, distanceFrom p q = distanceFrom q p).
  { intros p q. apply distanceFrom_swap. intros a b.
    apply (IEEE_facts.SFmul_sub_swap Double.prec Double.emax). }
  assert (Sf : forall p q : Point float, distanceFrom p q = distanceFrom q p).
  { intros p q. apply distanceFrom_swap. intros a b.
    apply (IEEE_facts.SFmul_sub_swap Float.prec Float.emax). }
  assert (Si : forall p q : Point int, distanceFrom p q = distanceFrom q p).
  { intros p q. apply distanceFrom_swap. intros a b.
    apply Int_facts.mul_sub_swap. }
  destruct distanceFrom_finite_not_nan as (Nd & Nf & Ni).
  split; [|split; [|split; [|split; [|split]]]]; intros p q.
  - intros Fp Fq. rewrite <- (Sd p q), SFeqb_same, (Nd p q Fp Fq). reflexivity.
  - intros Fp Fq. rewrite <- (Sf p q), SFeqb_same, (Nf p q Fp Fq). reflexivity.
  - intros B. rewrite <- (Si p q), SFeqb_same, (Ni p q B). reflexivity.
  - split; [apply Sd|]. rewrite <- (Sd p q). apply SFeqb_same.
  - split; [apply Sf|]. rewrite <- (Sf p q). apply SFeqb_same.
  - split; [apply Si|]. rewrite <- (Si p q). apply SFeqb_same.
Qed.

Lemma distanceFrom_symmetric_witness :
  let p : Point double :=
    Point_new (Double.of_Z 1) (Double.of_Z (-2)) (Double.of_Z 3) in
  let q : Point double :=
    Point_new (Double.of_Z 0) (Double.of_Z 5) (Double.of_Z 7) in
  finite_point p = true /\ finite_point q = true
  /\ SFeqb (distanceFrom p q) (distanceFrom q p) = true.
Proof.
  intros p q.
  assert (Fp : finite_point p = true) by reflexivity.
  assert (Fq : finite_point q = true) by reflexivity.
  split; [exact Fp|]. split; [exact Fq|].
  exact (proj1 distanceFrom_symmetric p q Fp Fq).
Defined.

(** C4 as stated fails: a [Point<double>] with an infinite coordinate is at
    distance NaN from itself, which neither is nor compares equal to [0.0]. *)
Lemma distanceFrom_self_infinite_not_zero :
  let p : Point double :=
    Point_new (S754_infinity false) (Double.of_Z 0) (Double.of_Z 0) in
  distanceFrom p p = S754_nan
  /\ distanceFrom p p <> IEEE.pos_zero
  /\ SFeqb (distanceFrom p p) IEEE.pos_zero = false.
Proof. repeat split. discriminate. Qed.

(** C4, distance identity, amended: a point is at distance exactly [+0.0]
    from itself for every [Point<int>], and for every [Point<double>] and
    [Point<float>] whose three coordinates are finite (neither an infinity
    nor a NaN). *)
Theorem distanceFrom_self :
  (forall p : Point double,
     finite_point p = true -> distanceFrom p p = IEEE.pos_zero)
  /\ (forall p : Point float,
        finite_point p = true -> distanceFrom p p = IEEE.pos_zero)
  /\ (forall p : Point int, distanceFrom p p = IEEE.pos_zero).
Proof.
  repeat split; intros p.
  - intros Fp. apply (sqrt_sum_squares_self Double.prec Double.emax p Fp).
  - intros Fp. unfold distanceFrom.
    cbn [std_sqrt sub mul add Arithmetic_float].
    unfold Float.sqrt, Float.add, Float.mul, Float.sub.
    transitivity (Float.to_double IEEE.pos_zero); [|reflexivity].
    f_equal. exact (sqrt_sum_squares_self Float.prec Float.emax p Fp).
  - unfold distanceFrom. cbn [std_sqrt sub mul add Arithmetic_int].
    rewrite !Int_facts.sub_diag. reflexivity.
Qed.

Lemma distanceFrom_self_witness :
  let p : Point double :=
    Point_new (Double.of_Z 3) (Double.of_Z (-7)) (Double.of_Z 0) in
  finite_point p = true /\ distanceFrom p p = IEEE.pos_zero.
Proof.
  intros p.
  assert (Fp : finite_point p = true) by reflexivity.
  split; [exact Fp|].
  exact (proj1 distanceFrom_self p Fp).
Defined.

(** C6, known values: from [(0,0,0)] to [(3,4,0)] the distance is exactly
    [5.0], in [Point<double>], [Point<float>] and [Point<int>] alike; from
    the integer point [(0,0,0)] to [(1,1,1)] it is the [double]
    [7800463371553962 * 2^-52], the binary64 number nearest to the square
    root of 3, which lies between 1.7320508 and 1.7320509. *)
Theorem known_distances :
  let five : double := S754_finite false 5629499534213120 (-50) in
  let root3 : double := S754_finite false 7800463371553962 (-52) in
  IEEE.value_is 5 five = true
  /\ distanceFrom (Point_new (Double.of_Z 0) (Double.of_Z 0) (Double.of_Z 0))
                  (Point_new (Double.of_Z 3) (Double.of_Z 4) (Double.of_Z 0))
     = five
  /\ distanceFrom (Point_new (Float.of_Z 0) (Float.of_Z 0) (Float.of_Z 0))
                  (Point_new (Float.of_Z 3) (Float.of_Z 4) (Float.of_Z 0))
     = five
  /\ distanceFrom (@Point_new int 0 0 0) (@Point_new int 3 4 0) = five
  /\ distanceFrom (@Point_new int 0 0 0) (@Point_new int 1 1 1) = root3
  /\ IEEE.nearest_to_sqrt 3 root3 = true
  /\ IEEE.value_between 17320508 17320509 7 root3 = true.
Proof. vm_compute. repeat split. Qed.

(** C10 as stated fails: two [Point<double>] with an infinite coordinate are
    at distance NaN, and [NaN >= 0] is false. *)
Lemma distanceFrom_infinite_not_nonnegative :
  let p : Point double :=
    Point_new (S754_infinity false) (Double.of_Z 1) (Double.of_Z 2) in
  let q : Point double :=
    Point_new (S754_infinity false) (Double.of_Z 5) (Double.of_Z 0) in
  distanceFrom p q = S754_nan
  /\ Double.leb IEEE.pos_zero (distanceFrom p q) = false.
Proof. vm_compute. split; reflexivity. Qed.

(** C10, nonnegativity, amended: [0 <= p.distanceFrom(q)] holds for all
    points of [Point<double>] and [Point<float>] whose coordinates are all
    finite, and for all points of [Point<int>] whose exact sum of squared
    differences is at most [INT_MAX]; for all other points of the three types
    the result is a NaN or at least zero. *)
Theorem distanceFrom_nonnegative :
  (forall p q : Point double,
     finite_point p = true -> finite_point q = true ->
     Double.leb IEEE.pos_zero (distanceFrom p q) = true)
  /\ (forall p q : Point float,
        finite_point p = true -> finite_point q = true ->
        Double.leb IEEE.pos_zero (distanceFrom p q) = true)
  /\ (forall p q : Point int,
        exact_sum_of_squares p q <= Int.INT_MAX ->
        Double.leb IEEE.pos_zero (distanceFrom p q) = true)
  /\ (forall p q : Point double,
        IEEE.is_nan (distanceFrom p q) = true
        \/ Double.leb IEEE.pos_zero (distanceFrom p q) = true)
  /\ (forall p q : Point float,
        IEEE.is_nan (distanceFrom p q) = true
        \/ Double.leb IEEE.pos_zero (distanceFrom p q) = true)
  /\ (forall p q : Point int,
        IEEE.is_nan (distanceFrom p q) = true
        \/ Double.leb IEEE.pos_zero (distanceFrom p q) = true).
Proof.
  repeat split; intros p q.
  - intros Fp Fq. apply IEEE_facts.has_sign_leb.
    apply (sqrt_sum_squares_sign Double.prec Double.emax p q Fp Fq).
  - intros Fp Fq. apply IEEE_facts.has_sign_leb.
    apply IEEE_facts.has_sign_convert.
    apply (sqrt_sum_squares_sign Float.prec Float.emax p q Fp Fq).
  - intros B. rewrite (distanceFrom_int_exact p q B).
    apply IEEE_facts.has_sign_leb, IEEE_facts.SFsqrt_nonneg.
    apply IEEE_facts.binary_normalize_nonneg.
    unfold exact_sum_of_squares.
    pose proof (Z.square_nonneg (x_ p - x_ q)).
    pose proof (Z.square_nonneg (y_ p - y_ q)).
    pose proof (Z.square_nonneg (z_ p - z_ q)). lia.
  - apply IEEE_facts.SFsqrt_nan_or_nonneg.
  - apply IEEE_facts.convert_nan_or_nonneg, IEEE_facts.SFsqrt_nan_or_nonneg.
  - apply IEEE_facts.SFsqrt_nan_or_nonneg.
Qed.

Lemma distanceFrom_nonnegative_witness :
  let p : Point double :=
    Point_new (Double.of_Z (-1)) (Double.of_Z (-1)) (Double.of_Z (-1)) in
  let q : Point double :=
    Point_new (Double.of_Z 1) (Double.of_Z 1) (Double.of_Z 1) in
  finite_point p = true /\ finite_point q = true
  /\ Double.leb IEEE.pos_zero (distanceFrom p q) = true.
Proof.
  intros p q.
  assert (Fp : finite_point p = true) by reflexivity.
  assert (Fq : finite_point q = true) by reflexivity.
  split; [exact Fp|]. split; [exact Fq|].
  exact (proj1 distanceFrom_nonnegative p q Fp Fq).
Defined.

(* ===================================================================== *)
(** * Sequences of writes *)
(* ===================================================================== *)

Module Writes.
Import Objects.

Section Store.
Context {T : Type}.
Implicit Types (s : store T) (p q : Point T) (this other : addr) (v w : T).
Implicit Types (m : member).

(** One write through a non-const accessor, followed by anything. *)
Lemma write_then {B : Type} s this p m v (k : comp T B) :
  s !! this = Some p ->
  (do r <- accessor m this; do _u <- assign r v; k) s
  = k (<[this := update m v p]> s).
Proof.
  intros E. unfold bind at 1.
  rewrite (Objects_facts.accessor_live _ _ _ m E).
  unfold bind at 1.
  rewrite (Objects_facts.assign_live s (Ref this m) v p E). reflexivity.
Qed.

Lemma write_only s this p m v :
  s !! this = Some p ->
  (do r <- accessor m this; assign r v) s
  = Some (tt, <[this := update m v p]> s).
Proof. apply Objects_facts.write_through_accessor. Qed.

Lemma update_update_same m v w p : update m w (update m v p) = update m w p.
Proof. destruct m; reflexivity. Qed.

Lemma update_update_other m m' v w p :
  m <> m' -> update m' w (update m v p) = update m v (update m' w p).
Proof. destruct m, m'; intros N; try reflexivity; contradiction. Qed.

Lemma update_select m p : update m (select m p) p = p.
Proof. destruct m, p; reflexivity. Qed.

Lemma update_all (a b c : T) p :
  update member_z c (update member_y b (update member_x a p)) = Point_new a b c.
Proof. reflexivity. Qed.

End Store.

End Writes.

Import Objects.

(** X1, the last write wins: in every store, for a live object [this] and
    a data member [m], two assignments through the non-const accessor of [m],
    first [v] and then [w], leave the object as the single assignment of [w]
    would, and the coordinate reads [w]. *)
Theorem last_write_wins (T : Type) (s : store T) (this : addr) (p : Point T)
    (v w : T) (m : member) :
  s !! this = Some p ->
  (do r <- accessor m this; do _u <- assign r v;
   do r' <- accessor m this; do _u' <- assign r' w;
   const_accessor m this) s
  = Some (w, <[this := update m w p]> s).
Proof.
  intros E.
  rewrite (Writes.write_then s this p m v _ E).
  rewrite (Writes.write_then _ this (update m v p) m w)
    by apply lookup_insert_eq.
  rewrite insert_insert_eq, Writes.update_update_same.
  rewrite (Objects_facts.const_accessor_live _ this (update m w p) m)
    by apply lookup_insert_eq.
  rewrite Objects_facts.select_update_same. reflexivity.
Qed.

Lemma last_write_wins_witness :
  let p : Point int := Point_new 1 2 3 in
  let s : store int := {[ 1%positive := p ]} in
  s !! 1%positive = Some p
  /\ (do r <- ref_y 1%positive; do _u <- assign r 8;
      do r' <- ref_y 1%positive; do _u' <- assign r' 9;
      get_y 1%positive) s
     = Some (9, <[ 1%positive := @Point_new int 1 9 3 ]> s).
Proof.
  intros p s.
  assert (E : s !! 1%positive = Some p) by reflexivity.
  split; [exact E|].
  exact (last_write_wins int s 1%positive p 8 9 member_y E).
Defined.

(** X2, writes commute: in every store, an assignment to the coordinate [m]
    of the live object [this] and an assignment to the coordinate [m'] of
    the live object [other] give the same store in either order, unless
    they are assignments to the same coordinate of the same object. *)
Theorem writes_commute (T : Type) (s : store T) (this other : addr)
    (p q : Point T) (v w : T) (m m' : member) :
  s !! this = Some p ->
  s !! other = Some q ->
  this <> other \/ m <> m' ->
  (do r <- accessor m this; do _u <- assign r v;
   do r' <- accessor m' other; assign r' w) s
  = (do r' <- accessor m' other; do _u <- assign r' w;
     do r <- accessor m this; assign r v) s.
Proof.
  intros Ep Eq D.
  rewrite (Writes.write_then s this p m v _ Ep).
  rewrite (Writes.write_then s other q m' w _ Eq).
  destruct (decide (this = other)) as [->|N].
  - assert (p = q) by congruence. subst q.
    destruct D as [D|D]; [contradiction|].
    rewrite (Writes.write_only _ other (update m v p) m' w)
      by apply lookup_insert_eq.
    rewrite (Writes.write_only _ other (update m' w p) m v)
      by apply lookup_insert_eq.
    rewrite !insert_insert_eq.
    rewrite (Writes.update_update_other m m' v w p D). reflexivity.
  - rewrite (Writes.write_only _ other q m' w)
      by (rewrite lookup_insert_ne by exact N; exact Eq).
    rewrite (Writes.write_only _ this p m v)
      by (rewrite lookup_insert_ne by congruence; exact Ep).
    rewrite (insert_insert_ne s this other) by exact N. reflexivity.
Qed.

Lemma writes_commute_witness :
  let p : Point int := Point_new 1 2 3 in
  let s : store int := {[ 1%positive := p ]} in
  s !! 1%positive = Some p
  /\ (1%positive <> 1%positive \/ member_x <> member_z)
  /\ (do r <- ref_x 1%positive; do _u <- assign r 7;
      do r' <- ref_z 1%positive; assign r' 9) s
     = (do r' <- ref_z 1%positive; do _u <- assign r' 9;
        do r <- ref_x 1%positive; assign r 7) s.
Proof.
  intros p s.
  assert (E : s !! 1%positive = Some p) by reflexivity.
  assert (D : 1%positive <> 1%positive \/ member_x <> member_z)
    by (right; discriminate).
  split; [exact E|]. split; [exact D|].
  exact (writes_commute int s 1%positive 1%positive p p 7 9
           member_x member_z E E D).
Defined.

(** X3, references are aliases: in every store, two references obtained
    from the non-const accessor of the same coordinate of a live object
    denote the same data member, so a value assigned through the first is
    the value read through the second, also when the second was obtained
    before the assignment. *)
Theorem references_alias (T : Type) (s : store T) (this : addr) (p : Point T)
    (v : T) (m : member) :
  s !! this = Some p ->
  (do r1 <- accessor m this; do r2 <- accessor m this;
   do _u <- assign r1 v; read r2) s
  = Some (v, <[this := update m v p]> s).
Proof.
  intros E.
  unfold bind at 1. rewrite (Objects_facts.accessor_live _ _ _ m E).
  unfold bind at 1. rewrite (Objects_facts.accessor_live _ _ _ m E).
  unfold bind at 1.
  rewrite (Objects_facts.assign_live s (Ref this m) v p E).
  cbn [ref_object ref_member].
  rewrite (Objects_facts.read_live _ (Ref this m) (update m v p))
    by apply lookup_insert_eq.
  cbn [ref_member]. rewrite Objects_facts.select_update_same. reflexivity.
Qed.

Lemma references_alias_witness :
  let p : Point int := Point_new 1 2 3 in
  let s : store int := {[ 1%positive := p ]} in
  s !! 1%positive = Some p
  /\ (do r1 <- ref_x 1%positive; do r2 <- ref_x 1%positive;
      do _u <- assign r1 5; read r2) s
     = Some (5, <[ 1%positive := @Point_new int 5 2 3 ]> s).
Proof.
  intros p s.
  assert (E : s !! 1%positive = Some p) by reflexivity.
  split; [exact E|].
  exact (references_alias int s 1%positive p 5 member_x E).
Defined.

(** X4, writes are local to the object: in every store, an assignment to a
    coordinate of the live object [this] changes no coordinate of any other
    live object [other]: its three const accessors return what they
    returned before. *)
Theorem write_leaves_other_objects (T : Type) (s : store T) (this other : addr)
    (p q : Point T) (v : T) (m : member) :
  s !! this = Some p ->
  s !! other = Some q ->
  other <> this ->
  (do r <- accessor m this; do _u <- assign r v;
   do a <- get_x other; do b <- get_y other; do c <- get_z other;
   ret (a, b, c)) s
  = Some ((x q, y q, z q), <[this := update m v p]> s).
Proof.
  intros Ep Eq N.
  rewrite (Writes.write_then s this p m v _ Ep).
  assert (Eq' : <[this := update m v p]> s !! other = Some q)
    by (rewrite lookup_insert_ne by congruence; exact Eq).
  pose proof (Objects_facts.const_accessor_live _ _ _ member_x Eq') as Hx.
  pose proof (Objects_facts.const_accessor_live _ _ _ member_y Eq') as Hy.
  pose proof (Objects_facts.const_accessor_live _ _ _ member_z Eq') as Hz.
  unfold const_accessor in Hx, Hy, Hz.
  unfold bind at 1. rewrite Hx.
  unfold bind at 1. rewrite Hy.
  unfold bind at 1. rewrite Hz.
  reflexivity.
Qed.

Lemma write_leaves_other_objects_witness :
  let p : Point int := Point_new 1 2 3 in
  let q : Point int := Point_new 4 5 6 in
  let s : store int := <[ 2%positive := q ]> {[ 1%positive := p ]} in
  s !! 1%positive = Some p /\ s !! 2%positive = Some q
  /\ 2%positive <> 1%positive
  /\ (do r <- ref_y 1%positive; do _u <- assign r 0;
      do a <- get_x 2%positive; do b <- get_y 2%positive;
      do c <- get_z 2%positive; ret (a, b, c)) s
     = Some ((4, 5, 6), <[ 1%positive := @Point_new int 1 0 3 ]> s).
Proof.
  intros p q s.
  assert (Ep : s !! 1%positive = Some p) by reflexivity.
  assert (Eq : s !! 2%positive = Some q) by reflexivity.
  assert (N : 2%positive <> 1%positive) by discriminate.
  split; [exact Ep|]. split; [exact Eq|]. split; [exact N|].
  exact (write_leaves_other_objects int s 1%positive 2%positive p q 0
           member_y Ep Eq N).
Defined.

(** X5, a point has no state beyond its coordinates: in every store,
    assigning [a], [b] and [c] through [x()], [y()] and [z()] of a live
    object makes it the object that the constructor builds from
    [(a, b, c)], whatever it held before. *)
Theorem three_writes_rebuild (T : Type) (s : store T) (this : addr)
    (p : Point T) (a b c : T) :
  s !! this = Some p ->
  (do rx <- ref_x this; do _u <- assign rx a;
   do ry <- ref_y this; do _v <- assign ry b;
   do rz <- ref_z this; assign rz c) s
  = Some (tt, <[this := Point_new a b c]> s).
Proof.
  intros E.
  rewrite (Writes.write_then s this p member_x a _ E).
  rewrite (Writes.write_then _ this (update member_x a p) member_y b)
    by apply lookup_insert_eq.
  rewrite insert_insert_eq.
  rewrite (Writes.write_only _ this
             (update member_y b (update member_x a p)) member_z c)
    by apply lookup_insert_eq.
  rewrite insert_insert_eq, Writes.update_all. reflexivity.
Qed.

Lemma three_writes_rebuild_witness :
  let p : Point int := Point_new 1 2 3 in
  let s : store int := {[ 1%positive := p ]} in
  s !! 1%positive = Some p
  /\ (do rx <- ref_x 1%positive; do _u <- assign rx 7;
      do ry <- ref_y 1%positive; do _v <- assign ry 8;
      do rz <- ref_z 1%positive; assign rz 9) s
     = Some (tt, <[ 1%positive := @Point_new int 7 8 9 ]> s).
Proof.
  intros p s.
  assert (E : s !! 1%positive = Some p) by reflexivity.
  split; [exact E|].
  exact (three_writes_rebuild int s 1%positive p 7 8 9 E).
Defined.

(* ===================================================================== *)
(** * NaN and infinite coordinates *)
(* ===================================================================== *)

Module Special.
Import IEEE.

Section Format.
Variables prec emax : Z.

Lemma SFsub_is_nan a b : is_nan (SFsub prec emax a b) = undefined_difference a b.
Proof.
  destruct a as [sa|sa| |sa ma ea], b as [sb|sb| |sb mb eb]; simpl;
    try reflexivity; try (destruct sa, sb; reflexivity).
  apply IEEE_facts.binary_normalize_not_nan.
Qed.

Lemma SFsub_is_infinite a b :
  undefined_difference a b = false ->
  is_infinite a || is_infinite b = true ->
  is_infinite (SFsub prec emax a b) = true.
Proof.
  destruct a as [sa|sa| |sa ma ea], b as [sb|sb| |sb mb eb]; simpl;
    try discriminate; try reflexivity.
  destruct sa, sb; simpl; try discriminate; reflexivity.
Qed.

Lemma SFmul_self_is_nan u : is_nan (SFmul prec emax u u) = is_nan u.
Proof.
  destruct u as [s|s| |s m e]; try reflexivity.
  apply (IEEE_facts.has_sign_not_nan false).
  apply IEEE_facts.SFmul_self_sign. reflexivity.
Qed.

Lemma SFmul_self_clear u : clear (SFmul prec emax u u).
Proof.
  intros N. rewrite SFmul_self_is_nan in N.
  apply IEEE_facts.SFmul_self_sign, N.
Qed.

Lemma SFmul_self_infinite u :
  is_infinite u = true -> SFmul prec emax u u = S754_infinity false.
Proof. destruct u as [s|[]| |s m e]; try discriminate; reflexivity. Qed.

Lemma SFadd_is_nan a b :
  clear a -> clear b ->
  is_nan (SFadd prec emax a b) = is_nan a || is_nan b.
Proof.
  unfold clear.
  destruct a as [[]|[]| |[] ma ea], b as [[]|[]| |[] mb eb]; simpl;
    intros Ca Cb; try reflexivity;
    try (discriminate (Ca eq_refl)); try (discriminate (Cb eq_refl)).
  apply (IEEE_facts.has_sign_not_nan false), IEEE_facts.binary_round_sign.
Qed.

Lemma SFadd_clear a b : clear a -> clear b -> clear (SFadd prec emax a b).
Proof.
  intros Ca Cb N. rewrite (SFadd_is_nan a b Ca Cb) in N.
  apply orb_false_iff in N. destruct N as [Na Nb].
  apply IEEE_facts.SFadd_nonneg; auto.
Qed.

Lemma SFadd_infinity_l b :
  has_sign false b = true ->
  SFadd prec emax (S754_infinity false) b = S754_infinity false.
Proof. destruct b as [[]|[]| |[] m e]; try discriminate; reflexivity. Qed.

Lemma SFadd_infinity_r a :
  has_sign false a = true ->
  SFadd prec emax a (S754_infinity false) = S754_infinity false.
Proof. destruct a as [[]|[]| |[] m e]; try discriminate; reflexivity. Qed.

Lemma SFsqrt_is_nan a :
  clear a -> is_nan (SFsqrt prec emax a) = is_nan a.
Proof.
  intros Ca. destruct (is_nan a) eqn:N.
  - destruct a; try discriminate. reflexivity.
  - apply (IEEE_facts.has_sign_not_nan false), IEEE_facts.SFsqrt_nonneg, Ca, N.
Qed.

Lemma SFsqrt_clear a : clear a -> clear (SFsqrt prec emax a).
Proof.
  intros Ca N. rewrite (SFsqrt_is_nan a Ca) in N.
  apply IEEE_facts.SFsqrt_nonneg, Ca, N.
Qed.

Lemma convert_is_nan f : is_nan (convert prec emax f) = is_nan f.
Proof.
  destruct f as [s|s| |s m e]; try reflexivity.
  apply (IEEE_facts.has_sign_not_nan s), IEEE_facts.binary_round_sign.
Qed.

Lemma convert_clear f : clear f -> clear (convert prec emax f).
Proof.
  intros Cf N. rewrite convert_is_nan in N.
  apply IEEE_facts.has_sign_convert, Cf, N.
Qed.

Lemma root_is_nan p q : is_nan (root prec emax p q) = undefined_axis p q.
Proof.
  unfold root, undefined_axis.
  rewrite SFsqrt_is_nan
    by (repeat apply SFadd_clear; apply SFmul_self_clear).
  rewrite SFadd_is_nan
    by (try apply SFadd_clear; apply SFmul_self_clear).
  rewrite SFadd_is_nan by apply SFmul_self_clear.
  rewrite !SFmul_self_is_nan, !SFsub_is_nan. reflexivity.
Qed.

Lemma root_clear p q : clear (root prec emax p q).
Proof.
  unfold root. apply SFsqrt_clear.
  repeat apply SFadd_clear; apply SFmul_self_clear.
Qed.

Lemma clear_no_sign f : clear f -> has_sign true f = false.
Proof.
  unfold clear. destruct f as [[]|[]| |[] m e]; simpl; intros C;
    try reflexivity; discriminate (C eq_refl).
Qed.

Lemma root_infinite p q :
  undefined_axis p q = false ->
  infinite_point p || infinite_point q = true ->
  root prec emax p q = S754_infinity false.
Proof.
  unfold undefined_axis, infinite_point. intros U I.
  apply orb_false_iff in U. destruct U as [U Uz].
  apply orb_false_iff in U. destruct U as [Ux Uy].
  assert (S : forall a b, undefined_difference a b = false ->
            has_sign false (SFmul prec emax (SFsub prec emax a b)
                                            (SFsub prec emax a b)) = true).
  { intros a b Uab. apply IEEE_facts.SFmul_self_sign.
    rewrite SFsub_is_nan. exact Uab. }
  assert (F : forall a b, undefined_difference a b = false ->
            is_infinite a || is_infinite b = true ->
            SFmul prec emax (SFsub prec emax a b) (SFsub prec emax a b)
            = S754_infinity false).
  { intros a b Uab Iab. apply SFmul_self_infinite, SFsub_is_infinite; assumption. }
  pose proof (S _ _ Ux) as Sx. pose proof (S _ _ Uy) as Sy.
  pose proof (S _ _ Uz) as Sz.
  unfold root.
  destruct (is_infinite (x_ p) || is_infinite (x_ q)) eqn:Ix.
  - rewrite (F _ _ Ux Ix), SFadd_infinity_l, SFadd_infinity_l by assumption.
    reflexivity.
  - destruct (is_infinite (y_ p) || is_infinite (y_ q)) eqn:Iy.
    + rewrite (F _ _ Uy Iy), SFadd_infinity_r, SFadd_infinity_l by assumption.
      reflexivity.
    + destruct (is_infinite (z_ p) || is_infinite (z_ q)) eqn:Iz.
      * rewrite (F _ _ Uz Iz), SFadd_infinity_r
          by (apply IEEE_facts.SFadd_nonneg; assumption).
        reflexivity.
      * apply orb_false_iff in Ix, Iy, Iz.
        destruct Ix as [Ixp Ixq], Iy as [Iyp Iyq], Iz as [Izp Izq].
        rewrite Ixp, Ixq, Iyp, Iyq, Izp, Izq in I. discriminate I.
Qed.

End Format.

End Special.

(** X6, when the distance is a NaN: for all points of [Point<double>] and of
    [Point<float>], [p.distanceFrom(q)] is a NaN exactly when, on some axis,
    one of the two coordinates is a NaN or both are infinities of the same
    sign; overflow of a difference, a square or the sum never gives a NaN. *)
Theorem distanceFrom_nan_iff :
  (forall p q : Point double,
     IEEE.is_nan (distanceFrom p q) = undefined_axis p q)
  /\ (forall p q : Point float,
        IEEE.is_nan (distanceFrom p q) = undefined_axis p q).
Proof.
  split; intros p q.
  - exact (Special.root_is_nan Double.prec Double.emax p q).
  - change (IEEE.is_nan (IEEE.convert Double.prec Double.emax
                           (root Float.prec Float.emax p q))
            = undefined_axis p q).
    rewrite Special.convert_is_nan. apply Special.root_is_nan.
Qed.

(** X7, no negative result: for all points of [Point<double>] and of
    [Point<float>], with any coordinates, [p.distanceFrom(q)] is either a
    NaN or a value with a clear sign bit: a result that is not a NaN is never
    a negative number, never minus infinity and never [-0.0].  (Nothing is
    said of the sign bit of a NaN result.) *)
Theorem distanceFrom_sign_clear :
  (forall p q : Point double,
     IEEE.is_nan (distanceFrom p q) = true
     \/ IEEE.has_sign false (distanceFrom p q) = true)
  /\ (forall p q : Point float,
        IEEE.is_nan (distanceFrom p q) = true
        \/ IEEE.has_sign false (distanceFrom p q) = true).
Proof.
  assert (C : forall d, clear d ->
            IEEE.is_nan d = true \/ IEEE.has_sign false d = true).
  { intros d Cd. destruct (IEEE.is_nan d) eqn:N; [left; reflexivity|].
    right. apply Cd. exact N. }
  split; intros p q; apply C.
  - exact (Special.root_clear Double.prec Double.emax p q).
  - exact (Special.convert_clear Double.prec Double.emax _
             (Special.root_clear Float.prec Float.emax p q)).
Qed.

(** X8, infinite coordinates: for all points of [Point<double>] and of
    [Point<float>] with no NaN coordinate and no axis on which both
    coordinates are infinities of the same sign, if any of the six
    coordinates is infinite then [p.distanceFrom(q)] is plus infinity. *)
Theorem distanceFrom_infinite :
  (forall p q : Point double,
     undefined_axis p q = false ->
     infinite_point p || infinite_point q = true ->
     distanceFrom p q = S754_infinity false)
  /\ (forall p q : Point float,
        undefined_axis p q = false ->
        infinite_point p || infinite_point q = true ->
        distanceFrom p q = S754_infinity false).
Proof.
  split; intros p q U I.
  - exact (Special.root_infinite Double.prec Double.emax p q U I).
  - change (IEEE.convert Double.prec Double.emax
              (root Float.prec Float.emax p q) = S754_infinity false).
    rewrite (Special.root_infinite Float.prec Float.emax p q U I).
    reflexivity.
Qed.

Lemma distanceFrom_infinite_witness :
  let p : Point double :=
    Point_new (S754_infinity true) (Double.of_Z 1) (Double.of_Z 2) in
  let q : Point double :=
    Point_new (S754_infinity false) (Double.of_Z 5) (Double.of_Z 0) in
  undefined_axis p q = false
  /\ infinite_point p || infinite_point q = true
  /\ distanceFrom p q = S754_infinity false.
Proof.
  intros p q.
  assert (U : undefined_axis p q = false) by reflexivity.
  assert (I : infinite_point p || infinite_point q = true) by reflexivity.
  split; [exact U|]. split; [exact I|].
  exact (proj1 distanceFrom_infinite p q U I).
Defined.

(* ===================================================================== *)
(** * Integer coordinates *)
(* ===================================================================== *)

Module Int_distance.

Lemma sub_add_add a b t : Int.sub (Int.add a t) (Int.add b t) = Int.sub a b.
Proof.
  unfold Int.sub, Int.add. apply Int_facts.wrap_eq.
  rewrite Zminus_mod, !Int_facts.wrap_mod, <- Zminus_mod.
  f_equal. lia.
Qed.

End Int_distance.

(** X9, translation on [Point<int>]: moving both points by the same three
    offsets (with [int] addition) leaves [distanceFrom] unchanged, for all
    coordinates and offsets: the result depends on the coordinates only
    through their differences. *)
Theorem distanceFrom_int_translation (a b c a' b' c' dx dy dz : int) :
  distanceFrom (Point_new (Int.add a dx) (Int.add b dy) (Int.add c dz))
               (Point_new (Int.add a' dx) (Int.add b' dy) (Int.add c' dz))
  = distanceFrom (@Point_new int a b c) (@Point_new int a' b' c').
Proof.
  unfold distanceFrom, Point_new.
  cbn [x_ y_ z_ std_sqrt sub mul add Arithmetic_int].
  rewrite !Int_distance.sub_add_add. reflexivity.
Qed.

(* ===================================================================== *)
(** * Square roots of integers *)
(* ===================================================================== *)

Module Digits.

Lemma digits_upper p : Z.pos p < 2 ^ Z.pos (digits2_pos p).
Proof.
  induction p as [p IH|p IH|]; cbn [digits2_pos].
  - rewrite Pos2Z.inj_succ, Z.pow_succ_r by lia. lia.
  - rewrite Pos2Z.inj_succ, Z.pow_succ_r by lia. lia.
  - reflexivity.
Qed.

Lemma digits_lower p : 2 ^ (Z.pos (digits2_pos p) - 1) <= Z.pos p.
Proof.
  induction p as [p IH|p IH|]; cbn [digits2_pos].
  - rewrite Pos2Z.inj_succ.
    replace (Z.succ (Z.pos (digits2_pos p)) - 1)
      with (Z.succ (Z.pos (digits2_pos p) - 1)) by lia.
    rewrite Z.pow_succ_r by lia. lia.
  - rewrite Pos2Z.inj_succ.
    replace (Z.succ (Z.pos (digits2_pos p)) - 1)
      with (Z.succ (Z.pos (digits2_pos p) - 1)) by lia.
    rewrite Z.pow_succ_r by lia. lia.
  - simpl. lia.
Qed.

Lemma digits_le p k : 0 <= k -> Z.pos p < 2 ^ k -> Z.pos (digits2_pos p) <= k.
Proof.
  intros K B. pose proof (digits_lower p) as L.
  assert (H : 2 ^ (Z.pos (digits2_pos p) - 1) < 2 ^ k) by lia.
  apply Z.pow_lt_mono_r_iff in H; lia.
Qed.

Lemma digits_iter_xO n : forall p,
  digits2_pos (Pos.iter xO p n) = (digits2_pos p + n)%positive.
Proof.
  induction n using Pos.peano_ind; intros p.
  - simpl. lia.
  - rewrite Pos.iter_succ. cbn [digits2_pos]. rewrite IHn. lia.
Qed.

Lemma iter_xO_value n : forall p,
  Z.pos (Pos.iter xO p n) = Z.pos p * 2 ^ Z.pos n.
Proof.
  induction n using Pos.peano_ind; intros p.
  - simpl. lia.
  - rewrite Pos.iter_succ, Pos2Z.inj_xO, IHn, Pos2Z.inj_succ.
    rewrite Z.pow_succ_r by lia. lia.
Qed.

End Digits.

Module Binary64.
Import Digits.

Lemma loc_of_shr_record_of_loc m l :
  loc_of_shr_record (shr_record_of_loc m l) = l.
Proof. destruct l as [|[]]; reflexivity. Qed.

(** A mantissa of at most 53 bits above the subnormal exponent is kept as
    it is. *)
Lemma no_shift q e l :
  Z.pos (digits2_pos q) <= 53 -> -1074 <= e ->
  shr_fexp 53 1024 (Z.pos q) e l = (shr_record_of_loc (Z.pos q) l, e).
Proof.
  intros D E. unfold shr_fexp, fexp, emin. cbn [Zdigits2].
  set (c := Z.max (Z.pos (digits2_pos q) + e - 53) (3 - 1024 - 53) - e).
  assert (C : c <= 0) by lia.
  destruct c; [reflexivity | lia | reflexivity].
Qed.

Lemma round_nearest_even_bounds q l :
  Z.pos q <= round_nearest_even (Z.pos q) l <= Z.pos q + 1.
Proof.
  destruct l as [|[]]; cbn [round_nearest_even]; try lia.
  destruct (Z.even (Z.pos q)); lia.
Qed.

Lemma shr_1_nonzero q r s :
  q <> xH -> shr_m (shr_1 {| shr_m := Z.pos q; shr_r := r; shr_s := s |}) <> 0.
Proof. destruct q; simpl; congruence. Qed.

Lemma binary_round_aux_nonzero s q e l :
  Z.pos (digits2_pos q) <= 53 -> -1074 <= e ->
  is_zero (binary_round_aux 53 1024 s (Z.pos q) e l) = false.
Proof.
  intros D E. unfold binary_round_aux.
  rewrite (no_shift q e l D E).
  rewrite IEEE_facts.shr_record_of_loc_m, loc_of_shr_record_of_loc.
  pose proof (round_nearest_even_bounds q l) as B.
  destruct (round_nearest_even (Z.pos q) l) as [|q'|q'] eqn:R; try lia.
  pose proof (digits_upper q) as U.
  assert (D' : Z.pos (digits2_pos q') <= 54).
  { apply digits_le; [lia|].
    assert (2 ^ Z.pos (digits2_pos q) <= 2 ^ 53)
      by (apply Z.pow_le_mono_r; lia).
    change (2 ^ 54) with (2 * 2 ^ 53). lia. }
  unfold shr_fexp, fexp, emin. cbn [Zdigits2 shr_record_of_loc].
  remember (Z.max (Z.pos (digits2_pos q') + e - 53) (3 - 1024 - 53) - e)
    as c eqn:Ec.
  assert (C : c <= 1) by lia.
  destruct c as [|k|k]; cbn [shr fst snd shr_m]; try reflexivity.
  - destruct (e <=? 1024 - 53); reflexivity.
  - assert (k = xH) by lia. subst k. cbn [SpecFloat.iter_pos].
    assert (N : q' <> xH).
    { intros ->. cbn [digits2_pos] in Ec. lia. }
    pose proof (shr_1_nonzero q' false false N) as Z.
    destruct (shr_m (shr_1 _)) as [|m|m]; [congruence| |reflexivity].
    destruct (e + 1 <=? 1024 - 53); reflexivity.
  - destruct (e <=? 1024 - 53); reflexivity.
Qed.

Lemma binary_round_aux_exact s q e :
  Z.pos (digits2_pos q) <= 53 -> -1074 <= e <= 971 ->
  binary_round_aux 53 1024 s (Z.pos q) e loc_Exact = S754_finite s q e.
Proof.
  intros D E. unfold binary_round_aux.
  rewrite (no_shift q e loc_Exact) by lia.
  cbn [shr_record_of_loc shr_m loc_of_shr_record round_nearest_even].
  rewrite (no_shift q e loc_Exact) by lia.
  cbn [shr_record_of_loc shr_m].
  replace (e <=? 1024 - 53) with true by (symmetry; apply Z.leb_le; lia).
  reflexivity.
Qed.

(** An integer of at most 53 bits converts to a normal number of the same
    value. *)
Lemma of_positive_shape s n :
  Z.pos (digits2_pos n) <= 53 ->
  exists m e, binary_round 53 1024 s n 0 = S754_finite s m e
              /\ Z.pos (digits2_pos m) = 53 /\ -52 <= e <= 0
              /\ Z.pos m = Z.pos n * 2 ^ (- e).
Proof.
  intros D. unfold binary_round, shl_align, fexp, emin.
  replace (Z.max (Z.pos (digits2_pos n) + 0 - 53) (3 - 1024 - 53) - 0)
    with (Z.pos (digits2_pos n) - 53) by lia.
  replace (Z.max (Z.pos (digits2_pos n) + 0 - 53) (3 - 1024 - 53))
    with (Z.pos (digits2_pos n) - 53) by lia.
  destruct (Z.pos (digits2_pos n) - 53) as [|d|d] eqn:Ed; try lia.
  - exists n, 0. split; [|split; [lia|split; [lia|simpl; lia]]].
    apply binary_round_aux_exact; lia.
  - exists (Pos.iter xO n d), (Z.neg d).
    assert (Dm : Z.pos (digits2_pos (Pos.iter xO n d)) = 53)
      by (rewrite digits_iter_xO; lia).
    split; [|split; [exact Dm|split; [lia|apply iter_xO_value]]].
    apply binary_round_aux_exact; lia.
Qed.

(** The square root of a normal number with an exponent in [-52, 0] is not
    zero. *)
Lemma sqrt_nonzero m e :
  Z.pos (digits2_pos m) = 53 -> -52 <= e <= 0 ->
  is_zero (SFsqrt 53 1024 (S754_finite false m e)) = false.
Proof.
  intros D E. cbn [SFsqrt]. unfold SFsqrt_core_binary, fexp, emin.
  cbn [Zdigits2]. rewrite D, !Z.div2_div.
  set (e' := Z.min (Z.max ((53 + e + 1) / 2 - 53) (3 - 1024 - 53)) (e / 2)).
  assert (E' : e' = (54 + e) / 2 - 53).
  { unfold e'. replace (53 + e + 1) with (54 + e) by lia.
    pose proof (Z.div_mod (54 + e) 2 ltac:(lia)).
    pose proof (Z.mod_pos_bound (54 + e) 2 ltac:(lia)).
    pose proof (Z.div_mod e 2 ltac:(lia)).
    pose proof (Z.mod_pos_bound e 2 ltac:(lia)). lia. }
  assert (S : 52 <= e - 2 * e' <= 53).
  { pose proof (Z.div_mod (54 + e) 2 ltac:(lia)).
    pose proof (Z.mod_pos_bound (54 + e) 2 ltac:(lia)). lia. }
  destruct (e - 2 * e') as [|sh|sh] eqn:Es; try lia.
  pose proof (digits_upper m) as U. rewrite D in U.
  set (m' := Z.shiftl (Z.pos m) (Z.pos sh)).
  assert (M : 1 <= m' < 2 ^ 106).
  { unfold m'. rewrite Z.shiftl_mul_pow2 by lia.
    assert (1 <= 2 ^ Z.pos sh) by (apply (Z.pow_le_mono_r 2 0); lia).
    assert (2 ^ Z.pos sh <= 2 ^ 53) by (apply Z.pow_le_mono_r; lia).
    change (2 ^ 106) with (2 ^ 53 * 2 ^ 53). nia. }
  pose proof (Z.sqrtrem_sqrt m') as Q.
  pose proof (Z.sqrt_spec m' ltac:(lia)) as Sp.
  destruct (Z.sqrtrem m') as [q r]. cbn [fst] in Q. subst q.
  assert (B : 1 <= Z.sqrt m' < 2 ^ 53).
  { pose proof (Z.sqrt_nonneg m') as N0. split.
    - destruct (Z.eq_dec (Z.sqrt m') 0) as [Z0|]; [|lia].
      rewrite Z0 in Sp. simpl in Sp. lia.
    - destruct (Z_lt_le_dec (Z.sqrt m') (2 ^ 53)) as [L|G]; [exact L|].
      assert (P : 2 ^ 53 * 2 ^ 53 <= Z.sqrt m' * Z.sqrt m')
        by (apply Z.mul_le_mono_nonneg; lia).
      change (2 ^ 53 * 2 ^ 53) with (2 ^ 106) in P.
      destruct Sp as [Sp _]. destruct M as [_ M].
      exfalso. apply (Z.lt_irrefl m').
      eapply Z.lt_le_trans; [exact M|].
      eapply Z.le_trans; [exact P|exact Sp]. }
  destruct (Z.sqrt m') as [|q|q]; try lia.
  apply binary_round_aux_nonzero; [|lia].
  apply digits_le; lia.
Qed.

(** The square root of a normal number whose value is the square of an
    integer [K] is that integer, exactly. *)
Lemma sqrt_exact m e K :
  Z.pos (digits2_pos m) = 53 -> -52 <= e <= 0 ->
  0 < K -> Z.pos m = K * K * 2 ^ (- e) ->
  integer_value (SFsqrt 53 1024 (S754_finite false m e)) = Some K.
Proof.
  intros D E K0 V. cbn [SFsqrt]. unfold SFsqrt_core_binary, fexp, emin.
  cbn [Zdigits2]. rewrite D, !Z.div2_div.
  set (e' := Z.min (Z.max ((53 + e + 1) / 2 - 53) (3 - 1024 - 53)) (e / 2)).
  assert (E' : e' = (54 + e) / 2 - 53).
  { unfold e'. replace (53 + e + 1) with (54 + e) by lia.
    pose proof (Z.div_mod (54 + e) 2 ltac:(lia)).
    pose proof (Z.mod_pos_bound (54 + e) 2 ltac:(lia)).
    pose proof (Z.div_mod e 2 ltac:(lia)).
    pose proof (Z.mod_pos_bound e 2 ltac:(lia)). lia. }
  assert (R : -52 <= e' <= -26).
  { pose proof (Z.div_mod (54 + e) 2 ltac:(lia)).
    pose proof (Z.mod_pos_bound (54 + e) 2 ltac:(lia)). lia. }
  assert (S : 52 <= e - 2 * e' <= 53).
  { pose proof (Z.div_mod (54 + e) 2 ltac:(lia)).
    pose proof (Z.mod_pos_bound (54 + e) 2 ltac:(lia)). lia. }
  clearbody e'.
  destruct (e - 2 * e') as [|sh|sh] eqn:Es; try lia.
  pose proof (digits_upper m) as U. rewrite D in U.
  remember (K * 2 ^ (- e')) as Q eqn:EQ.
  assert (P : 0 < 2 ^ (- e')) by (apply Z.pow_pos_nonneg; lia).
  assert (Q0 : 0 < Q) by (rewrite EQ; nia).
  assert (M : Z.shiftl (Z.pos m) (Z.pos sh) = Q * Q).
  { rewrite Z.shiftl_mul_pow2 by lia. rewrite V, <- Es, EQ.
    replace (K * 2 ^ (- e') * (K * 2 ^ (- e')))
      with (K * K * (2 ^ (- e') * 2 ^ (- e'))) by ring.
    rewrite <- Z.pow_add_r by lia.
    rewrite <- Z.mul_assoc, <- Z.pow_add_r by lia.
    do 2 f_equal. lia. }
  rewrite M.
  pose proof (Z.sqrtrem_spec (Q * Q) ltac:(nia)) as Sp.
  pose proof (Z.sqrtrem_sqrt (Q * Q)) as Sq.
  rewrite Z.sqrt_square in Sq by lia.
  destruct (Z.sqrtrem (Q * Q)) as [q r]. cbn [fst] in Sq. subst q.
  assert (r = 0) by lia. subst r. cbn [Z.eqb].
  assert (B : Q < 2 ^ 53).
  { destruct (Z_lt_le_dec Q (2 ^ 53)) as [L|G]; [exact L|].
    assert (G2 : 2 ^ 53 * 2 ^ 53 <= Q * Q)
      by (apply Z.mul_le_mono_nonneg; lia).
    rewrite <- M, Z.shiftl_mul_pow2 in G2 by lia.
    assert (2 ^ Z.pos sh <= 2 ^ 53) by (apply Z.pow_le_mono_r; lia).
    assert (0 < 2 ^ Z.pos sh) by (apply Z.pow_pos_nonneg; lia).
    exfalso. apply (Z.lt_irrefl (2 ^ 53 * 2 ^ 53)).
    eapply Z.le_lt_trans; [exact G2|].
    apply Z.le_lt_trans with (Z.pos m * 2 ^ 53).
    - apply Z.mul_le_mono_nonneg_l; lia.
    - apply Z.mul_lt_mono_pos_r; [reflexivity|exact U]. }
  destruct Q as [|Qp|Qp]; try lia.
  rewrite binary_round_aux_exact by (try apply digits_le; lia).
  cbn [integer_value].
  replace (0 <=? e') with false by (symmetry; apply Z.leb_gt; lia).
  rewrite EQ.
  rewrite Z.mod_mul by lia. cbn [Z.eqb].
  rewrite Z.div_mul by lia. reflexivity.
Qed.

End Binary64.

Lemma SFeqb_zero f : SFeqb f IEEE.pos_zero = true -> is_zero f = true.
Proof. destruct f as [[]|[]| |[] m e]; cbv; congruence. Qed.

Lemma sqrt_of_positive_nonzero (n : positive) :
  Z.pos n <= Int.INT_MAX ->
  is_zero (Double.sqrt (Double.of_Z (Z.pos n))) = false.
Proof.
  unfold Int.INT_MAX. intros B.
  assert (D : Z.pos (digits2_pos n) <= 53)
    by (apply Digits.digits_le; [lia|];
        assert (2147483647 < 2 ^ 53) by reflexivity; lia).
  destruct (Binary64.of_positive_shape false n D) as (m & e & E & Dm & Be & _).
  unfold Double.sqrt, Double.of_Z, IEEE.of_Z, Double.prec, Double.emax.
  cbn [binary_normalize]. rewrite E.
  apply Binary64.sqrt_nonzero; assumption.
Qed.

Lemma sqrt_of_square (k : Z) :
  0 <= k -> k * k <= Int.INT_MAX ->
  integer_value (Double.sqrt (Double.of_Z (k * k))) = Some k.
Proof.
  unfold Int.INT_MAX. intros K0 K2.
  destruct (Z.eq_dec k 0) as [->|N]; [reflexivity|].
  destruct (k * k) as [|n|n] eqn:E; try nia.
  assert (D : Z.pos (digits2_pos n) <= 53)
    by (apply Digits.digits_le; [lia|];
        assert (2147483647 < 2 ^ 53) by reflexivity; lia).
  destruct (Binary64.of_positive_shape false n D) as (m & e & R & Dm & Be & V).
  unfold Double.sqrt, Double.of_Z, IEEE.of_Z, Double.prec, Double.emax.
  cbn [binary_normalize]. rewrite R.
  apply Binary64.sqrt_exact; try assumption; lia.
Qed.


(** X10, whole distances on [Point<int>]: when the exact sum of the three
    squared differences is a square [k * k] that fits in an [int], with
    [0 <= k], [p.distanceFrom(q)] is exactly the integer [k]: no rounding
    error appears in the conversion or in the square root. *)
Theorem distanceFrom_int_whole (p q : Point int) (k : Z) :
  0 <= k ->
  exact_sum_of_squares p q = k * k ->
  k * k <= Int.INT_MAX ->
  integer_value (distanceFrom p q) = Some k.
Proof.
  intros K0 E K2.
  rewrite (distanceFrom_int_exact p q) by (rewrite E; exact K2).
  rewrite E. apply sqrt_of_square; assumption.
Qed.

Lemma distanceFrom_int_whole_witness :
  let p : Point int := Point_new 1 (-2) 3 in
  let q : Point int := Point_new 4 2 15 in
  0 <= 13 /\ exact_sum_of_squares p q = 13 * 13 /\ 13 * 13 <= Int.INT_MAX
  /\ integer_value (distanceFrom p q) = Some 13.
Proof.
  intros p q.
  assert (K0 : 0 <= 13) by lia.
  assert (E : exact_sum_of_squares p q = 13 * 13) by reflexivity.
  assert (K2 : 13 * 13 <= Int.INT_MAX) by (vm_compute; discriminate).
  split; [exact K0|]. split; [exact E|]. split; [exact K2|].
  exact (distanceFrom_int_whole p q 13 K0 E K2).
Defined.

(** X11, distance zero means the same point, on [Point<int>]: when the exact
    sum of the three squared differences fits in an [int],
    [p.distanceFrom(q) == 0.0] holds exactly when [p] and [q] have the same
    three coordinates. *)
Theorem distanceFrom_int_zero_iff (p q : Point int) :
  exact_sum_of_squares p q <= Int.INT_MAX ->
  (SFeqb (distanceFrom p q) IEEE.pos_zero = true <-> p = q).
Proof.
  intros B. split.
  - intros Z. apply SFeqb_zero in Z.
    rewrite (distanceFrom_int_exact p q B) in Z.
    pose proof (Z.square_nonneg (x_ p - x_ q)) as Px.
    pose proof (Z.square_nonneg (y_ p - y_ q)) as Py.
    pose proof (Z.square_nonneg (z_ p - z_ q)) as Pz.
    destruct (exact_sum_of_squares p q) as [|n|n] eqn:E.
    + unfold exact_sum_of_squares in E.
      assert (Ex : (x_ p - x_ q) * (x_ p - x_ q) = 0) by lia.
      assert (Ey : (y_ p - y_ q) * (y_ p - y_ q) = 0) by lia.
      assert (Ez : (z_ p - z_ q) * (z_ p - z_ q) = 0) by lia.
      apply Z.mul_eq_0 in Ex, Ey, Ez.
      destruct p as [a b c], q as [a' b' c']. cbn [x_ y_ z_] in *.
      assert (a = a') by lia. assert (b = b') by lia. assert (c = c') by lia.
      congruence.
    + rewrite (sqrt_of_positive_nonzero n B) in Z. discriminate.
    + unfold exact_sum_of_squares in E. lia.
  - intros <-. unfold distanceFrom.
    cbn [std_sqrt sub mul add Arithmetic_int].
    rewrite !Int_facts.sub_diag. reflexivity.
Qed.

Lemma distanceFrom_int_zero_iff_witness :
  let p : Point int := Point_new 0 0 0 in
  let q : Point int := Point_new 3 4 0 in
  exact_sum_of_squares p q <= Int.INT_MAX
  /\ (SFeqb (distanceFrom p q) IEEE.pos_zero = true <-> p = q).
Proof.
  intros p q.
  assert (B : exact_sum_of_squares p q <= Int.INT_MAX)
    by (vm_compute; discriminate).
  split; [exact B|].
  exact (distanceFrom_int_zero_iff p q B).
Defined.

(* ===================================================================== *)
(** * Exact arithmetic on integer-valued coordinates *)
(* ===================================================================== *)

Module Exact.
Import Digits.

Lemma digits_unique p d :
  2 ^ (d - 1) <= Z.pos p < 2 ^ d -> Z.pos (digits2_pos p) = d.
Proof.
  intros [L U].
  pose proof (digits_upper p) as U'. pose proof (digits_lower p) as L'.
  assert (D0 : 0 < d).
  { destruct (Z_lt_le_dec 0 d) as [?|G]; [assumption|].
    rewrite (Z.pow_neg_r 2 (d - 1)) in L by lia.
    destruct (Z.eq_dec d 0) as [->|]; [simpl in U; lia|].
    rewrite (Z.pow_neg_r 2 d) in U by lia. lia. }
  assert (A : Z.pos (digits2_pos p) - 1 < d).
  { apply (Z.pow_lt_mono_r_iff 2); lia. }
  assert (B : d - 1 < Z.pos (digits2_pos p)).
  { apply (Z.pow_lt_mono_r_iff 2); lia. }
  lia.
Qed.

(** The number of bits of [n * 2^k]. *)
Lemma digits_shifted m n k :
  0 <= k -> Z.pos m = Z.pos n * 2 ^ k ->
  Z.pos (digits2_pos m) = Z.pos (digits2_pos n) + k.
Proof.
  intros K E. apply digits_unique. rewrite E.
  pose proof (digits_upper n) as U. pose proof (digits_lower n) as L.
  assert (P : 0 < 2 ^ k) by (apply Z.pow_pos_nonneg; lia).
  replace (Z.pos (digits2_pos n) + k - 1)
    with (Z.pos (digits2_pos n) - 1 + k) by lia.
  rewrite !Z.pow_add_r by lia. split.
  - apply Z.mul_le_mono_nonneg_r; lia.
  - apply Z.mul_lt_mono_pos_r; lia.
Qed.

Lemma shr_1_double k :
  0 <= k ->
  shr_1 {| shr_m := 2 * k; shr_r := false; shr_s := false |}
  = {| shr_m := k; shr_r := false; shr_s := false |}.
Proof. destruct k as [|k|k]; intros K; try reflexivity; lia. Qed.

(** Shifting out [c] zero bits loses nothing. *)
Lemma iter_shr_exact c : forall k,
  0 <= k ->
  SpecFloat.iter_pos shr_1 c
    {| shr_m := k * 2 ^ Z.pos c; shr_r := false; shr_s := false |}
  = {| shr_m := k; shr_r := false; shr_s := false |}.
Proof.
  induction c as [c IH|c IH|]; intros k K; cbn [SpecFloat.iter_pos].
  - assert (P : 0 < 2 ^ Z.pos c) by (apply Z.pow_pos_nonneg; lia).
    replace (k * 2 ^ Z.pos c~1)
      with (2 * (k * 2 ^ Z.pos c * 2 ^ Z.pos c)).
    + rewrite shr_1_double by nia. rewrite IH by nia. apply IH, K.
    + rewrite Pos2Z.inj_xI.
      replace (2 * Z.pos c + 1) with (Z.pos c + Z.pos c + 1) by lia.
      rewrite !Z.pow_add_r by lia. simpl (2 ^ 1). ring.
  - assert (P : 0 < 2 ^ Z.pos c) by (apply Z.pow_pos_nonneg; lia).
    replace (k * 2 ^ Z.pos c~0) with (k * 2 ^ Z.pos c * 2 ^ Z.pos c).
    + rewrite IH by nia. apply IH, K.
    + rewrite <- (Pos.add_diag c), Pos2Z.inj_add, Z.pow_add_r by lia. ring.
  - replace (k * 2 ^ 1) with (2 * k) by (simpl (2 ^ 1); ring).
    apply shr_1_double, K.
Qed.

Section Format.
Variables prec emax : Z.
Hypothesis Hprec : 2 <= prec.
Hypothesis Hemax : prec <= emax.

Abbreviation canon := (canonical prec).

Lemma fexp_magnitude d : 1 <= d -> fexp prec emax d = d - prec.
Proof. intros D. unfold fexp, emin. lia. Qed.

Lemma loc_roundtrip m l : loc_of_shr_record (shr_record_of_loc m l) = l.
Proof. destruct l as [|[]]; reflexivity. Qed.

(** A mantissa of at most [prec] bits above the least exponent is kept. *)
Lemma shift_is_zero q e l :
  Z.pos (digits2_pos q) <= prec -> 3 - emax - prec <= e ->
  shr_fexp prec emax (Z.pos q) e l = (shr_record_of_loc (Z.pos q) l, e).
Proof.
  intros D E. unfold shr_fexp, fexp, emin. cbn [Zdigits2].
  remember (Z.max (Z.pos (digits2_pos q) + e - prec) (3 - emax - prec) - e)
    as c eqn:Ec.
  assert (C : c <= 0) by lia.
  destruct c; [reflexivity | lia | reflexivity].
Qed.

Lemma kept s q e :
  Z.pos (digits2_pos q) <= prec -> 3 - emax - prec <= e <= emax - prec ->
  binary_round_aux prec emax s (Z.pos q) e loc_Exact = S754_finite s q e.
Proof.
  intros D E. unfold binary_round_aux.
  rewrite (shift_is_zero q e loc_Exact) by lia.
  cbn [shr_record_of_loc shr_m loc_of_shr_record round_nearest_even].
  rewrite (shift_is_zero q e loc_Exact) by lia.
  cbn [shr_record_of_loc shr_m].
  replace (e <=? emax - prec) with true by (symmetry; apply Z.leb_le; lia).
  reflexivity.
Qed.

(** Rounding a mantissa of at least [prec] bits that stands for an integer
    of at most [prec] bits gives that integer. *)
Lemma aux_value s m e N :
  Z.pos (digits2_pos N) <= prec -> e <= 0 ->
  Z.pos m = Z.pos N * 2 ^ (- e) ->
  prec <= Z.pos (digits2_pos m) ->
  binary_round_aux prec emax s (Z.pos m) e loc_Exact = canon s N.
Proof.
  intros DN E V Dm.
  pose proof (digits_shifted m N (- e) ltac:(lia) V) as Dv.
  unfold binary_round_aux. unfold shr_fexp at 1. cbn [Zdigits2].
  rewrite fexp_magnitude by lia.
  remember (Z.pos (digits2_pos m) + e - prec - e) as c eqn:Ec.
  assert (C : 0 <= c) by lia.
  assert (P : 0 < 2 ^ (prec - Z.pos (digits2_pos N)))
    by (apply Z.pow_pos_nonneg; lia).
  destruct c as [|c|c]; [| |lia]; cbn [shr shr_record_of_loc].
  - cbn [shr_m loc_of_shr_record round_nearest_even].
    rewrite (shift_is_zero m e loc_Exact) by lia.
    cbn [shr_record_of_loc shr_m].
    replace (e <=? emax - prec) with true by (symmetry; apply Z.leb_le; lia).
    unfold canonical. replace (Z.pos (digits2_pos N) - prec) with e by lia.
    replace (prec - Z.pos (digits2_pos N)) with (- e) by lia.
    rewrite <- V. reflexivity.
  - set (k := Z.pos N * 2 ^ (prec - Z.pos (digits2_pos N))).
    assert (K : Z.pos m = k * 2 ^ Z.pos c).
    { unfold k. rewrite V, <- Z.mul_assoc, <- Z.pow_add_r by lia.
      do 2 f_equal. lia. }
    rewrite K, iter_shr_exact by (unfold k; lia).
    cbn [shr_m loc_of_shr_record round_nearest_even].
    assert (Kp : k = Z.pos (Z.to_pos k)) by (rewrite Z2Pos.id; unfold k; lia).
    rewrite Kp.
    rewrite (shift_is_zero (Z.to_pos k) (e + Z.pos c) loc_Exact).
    + cbn [shr_record_of_loc shr_m].
      replace (e + Z.pos c <=? emax - prec) with true
        by (symmetry; apply Z.leb_le; lia).
      unfold canonical. fold k. f_equal. lia.
    + rewrite (digits_shifted (Z.to_pos k) N (prec - Z.pos (digits2_pos N)));
        [lia | lia | rewrite <- Kp; reflexivity].
    + lia.
Qed.

Lemma shl_align_value m e e' :
  e' <= e ->
  snd (shl_align m e e') = e'
  /\ Z.pos (fst (shl_align m e e')) = Z.pos m * 2 ^ (e - e').
Proof.
  intros L. unfold shl_align.
  destruct (e' - e) as [|d|d] eqn:Ed; cbn [fst snd]; try lia.
  - replace (e - e') with 0 by lia. split; lia.
  - rewrite iter_xO_value. split; [reflexivity|]. do 2 f_equal. lia.
Qed.

Lemma round_value s m e N :
  Z.pos (digits2_pos N) <= prec -> e <= 0 ->
  Z.pos m = Z.pos N * 2 ^ (- e) ->
  binary_round prec emax s m e = canon s N.
Proof.
  intros DN E V.
  pose proof (digits_shifted m N (- e) ltac:(lia) V) as Dv.
  unfold binary_round. rewrite fexp_magnitude by lia.
  destruct (Z_lt_le_dec (Z.pos (digits2_pos m)) prec) as [Lt|Ge].
  - pose proof (shl_align_value m e (Z.pos (digits2_pos m) + e - prec)
                  ltac:(lia)) as [S1 S2].
    destruct (shl_align m e _) as [m2 e2]. cbn [fst snd] in S1, S2. subst e2.
    apply aux_value; try lia.
    + rewrite S2, V, <- Z.mul_assoc, <- Z.pow_add_r by lia.
      do 2 f_equal. lia.
    + rewrite (digits_shifted m2 m (e - (Z.pos (digits2_pos m) + e - prec)))
        by (lia || exact S2). lia.
  - unfold shl_align.
    destruct (Z.pos (digits2_pos m) + e - prec - e) as [|d|d] eqn:Ed; try lia;
      apply aux_value; assumption || lia.
Qed.

Abbreviation F := (IEEE.of_Z prec emax).

Lemma cond_Zopp_mul s a b : cond_Zopp s (a * b) = cond_Zopp s a * b.
Proof. destruct s; simpl; ring. Qed.

Lemma small_digits N : Z.pos N < 2 ^ prec -> Z.pos (digits2_pos N) <= prec.
Proof. intros B. apply digits_le; lia. Qed.

Lemma of_Z_pos N : Z.pos N < 2 ^ prec -> F (Z.pos N) = canon false N.
Proof.
  intros B. unfold IEEE.of_Z. cbn [binary_normalize].
  apply round_value; [apply small_digits, B | lia | simpl; lia].
Qed.

Lemma of_Z_neg N : Z.pos N < 2 ^ prec -> F (Z.neg N) = canon true N.
Proof.
  intros B. unfold IEEE.of_Z. cbn [binary_normalize].
  apply round_value; [apply small_digits, B | lia | simpl; lia].
Qed.

Lemma canon_stands s N :
  Z.pos (digits2_pos N) <= prec -> stands_for (cond_Zopp s (Z.pos N)) (canon s N).
Proof.
  intros D. unfold canonical, stands_for. split; [lia|].
  assert (P : 0 < 2 ^ (prec - Z.pos (digits2_pos N)))
    by (apply Z.pow_pos_nonneg; lia).
  rewrite Z2Pos.id by lia.
  replace (- (Z.pos (digits2_pos N) - prec))
    with (prec - Z.pos (digits2_pos N)) by lia.
  apply cond_Zopp_mul.
Qed.

Lemma of_Z_stands z :
  z <> 0 -> Z.abs z < 2 ^ prec -> stands_for z (F z).
Proof.
  intros N B. destruct z as [|n|n]; [contradiction| |].
  - rewrite of_Z_pos by lia.
    apply (canon_stands false n), small_digits. lia.
  - rewrite of_Z_neg by lia.
    apply (canon_stands true n), small_digits. lia.
Qed.

(** A mantissa and exponent that stand for a small integer normalise to the
    conversion of that integer. *)
Lemma normalize_value z e :
  e <= 0 -> Z.abs z < 2 ^ prec ->
  binary_normalize prec emax (z * 2 ^ (- e)) e false = F z.
Proof.
  intros E B.
  assert (P : 0 < 2 ^ (- e)) by (apply Z.pow_pos_nonneg; lia).
  destruct z as [|n|n].
  - reflexivity.
  - rewrite of_Z_pos by lia.
    destruct (Z.pos n * 2 ^ (- e)) as [|m|m] eqn:V; try lia.
    cbn [binary_normalize]. apply round_value; [apply small_digits|..]; lia.
  - rewrite of_Z_neg by lia.
    destruct (Z.neg n * 2 ^ (- e)) as [|m|m] eqn:V; try lia.
    cbn [binary_normalize]. apply round_value; [apply small_digits|..]; lia.
Qed.

Lemma aligned s m e ez z :
  ez <= e -> e <= 0 -> cond_Zopp s (Z.pos m) = z * 2 ^ (- e) ->
  cond_Zopp s (Z.pos (fst (shl_align m e ez))) = z * 2 ^ (- ez).
Proof.
  intros L E V.
  destruct (shl_align_value m e ez L) as [_ ->].
  rewrite cond_Zopp_mul, V, <- Z.mul_assoc, <- Z.pow_add_r by lia.
  do 2 f_equal. lia.
Qed.

Lemma sub_stands a b fa fb :
  stands_for a fa -> stands_for b fb -> Z.abs (a - b) < 2 ^ prec ->
  SFsub prec emax fa fb = F (a - b).
Proof.
  destruct fa as [| | |sa ma ea]; try contradiction.
  destruct fb as [| | |sb mb eb]; try contradiction.
  intros [Ea Va] [Eb Vb] B. cbn [SFsub].
  rewrite (aligned sa ma ea (Z.min ea eb) a) by lia.
  rewrite (aligned sb mb eb (Z.min ea eb) b) by lia.
  rewrite <- Z.mul_sub_distr_r.
  apply normalize_value; lia.
Qed.

Lemma add_stands a b fa fb :
  stands_for a fa -> stands_for b fb -> Z.abs (a + b) < 2 ^ prec ->
  SFadd prec emax fa fb = F (a + b).
Proof.
  destruct fa as [| | |sa ma ea]; try contradiction.
  destruct fb as [| | |sb mb eb]; try contradiction.
  intros [Ea Va] [Eb Vb] B. cbn [SFadd].
  rewrite (aligned sa ma ea (Z.min ea eb) a) by lia.
  rewrite (aligned sb mb eb (Z.min ea eb) b) by lia.
  rewrite <- Z.mul_add_distr_r.
  apply normalize_value; lia.
Qed.

Lemma of_Z_opp z :
  z <> 0 -> Z.abs z < 2 ^ prec -> F (- z) = SFopp (F z).
Proof.
  intros N B. destruct z as [|n|n]; [contradiction| |].
  - change (- Z.pos n) with (Z.neg n).
    rewrite (of_Z_neg n), (of_Z_pos n) by lia. reflexivity.
  - change (- Z.neg n) with (Z.pos n).
    rewrite (of_Z_neg n), (of_Z_pos n) by lia. reflexivity.
Qed.

(** Subtraction of small integers is exact. *)
Lemma sub_exact a b :
  Z.abs a < 2 ^ prec -> Z.abs b < 2 ^ prec -> Z.abs (a - b) < 2 ^ prec ->
  SFsub prec emax (F a) (F b) = F (a - b).
Proof.
  intros Ba Bb B.
  destruct (Z.eq_dec a 0) as [->|Na]; destruct (Z.eq_dec b 0) as [->|Nb].
  - reflexivity.
  - rewrite Z.sub_0_l, of_Z_opp by assumption.
    pose proof (of_Z_stands b Nb Bb) as S.
    destruct (F b) as [| | |sb mb eb]; try contradiction. reflexivity.
  - rewrite Z.sub_0_r.
    pose proof (of_Z_stands a Na Ba) as S.
    destruct (F a) as [| | |sa ma ea]; try contradiction. reflexivity.
  - apply sub_stands; try apply of_Z_stands; assumption.
Qed.

(** Addition of small integers is exact. *)
Lemma add_exact a b :
  Z.abs a < 2 ^ prec -> Z.abs b < 2 ^ prec -> Z.abs (a + b) < 2 ^ prec ->
  SFadd prec emax (F a) (F b) = F (a + b).
Proof.
  intros Ba Bb B.
  destruct (Z.eq_dec a 0) as [->|Na]; destruct (Z.eq_dec b 0) as [->|Nb].
  - reflexivity.
  - rewrite Z.add_0_l.
    pose proof (of_Z_stands b Nb Bb) as S.
    destruct (F b) as [| | |sb mb eb]; try contradiction. reflexivity.
  - rewrite Z.add_0_r.
    pose proof (of_Z_stands a Na Ba) as S.
    destruct (F a) as [| | |sa ma ea]; try contradiction. reflexivity.
  - apply add_stands; try apply of_Z_stands; assumption.
Qed.

(** The square of a small integer is exact. *)
Lemma square_exact d :
  Z.abs d < 2 ^ prec -> d * d < 2 ^ prec ->
  SFmul prec emax (F d) (F d) = F (d * d).
Proof.
  intros Bd B.
  assert (S : forall s n, Z.pos n < 2 ^ prec -> Z.pos (n * n) < 2 ^ prec ->
            SFmul prec emax (canon s n) (canon s n) = F (Z.pos (n * n))).
  { intros s n Bn Bnn. rewrite of_Z_pos by exact Bnn.
    pose proof (small_digits n Bn) as Dn.
    pose proof (digits_upper (n * n)) as Unn.
    pose proof (digits_lower n) as Ln.
    assert (P : 0 < 2 ^ (prec - Z.pos (digits2_pos n)))
      by (apply Z.pow_pos_nonneg; lia).
    unfold canonical at 1 2. cbn [SFmul]. rewrite xorb_nilpotent.
    set (M := Z.to_pos (Z.pos n * 2 ^ (prec - Z.pos (digits2_pos n)))).
    assert (VM : Z.pos M = Z.pos n * 2 ^ (prec - Z.pos (digits2_pos n)))
      by (unfold M; rewrite Z2Pos.id; lia).
    assert (V : Z.pos (M * M)
                = Z.pos (n * n)
                  * 2 ^ (- (Z.pos (digits2_pos n) - prec
                            + (Z.pos (digits2_pos n) - prec)))).
    { rewrite !Pos2Z.inj_mul, VM.
      replace (- (Z.pos (digits2_pos n) - prec
                  + (Z.pos (digits2_pos n) - prec)))
        with (prec - Z.pos (digits2_pos n) + (prec - Z.pos (digits2_pos n)))
        by lia.
      rewrite Z.pow_add_r by lia. ring. }
    apply aux_value; [apply small_digits, Bnn | lia | exact V |].
    rewrite (digits_shifted (M * M) (n * n)
               (- (Z.pos (digits2_pos n) - prec
                   + (Z.pos (digits2_pos n) - prec))) ltac:(lia) V).
    assert (L2 : 2 ^ (Z.pos (digits2_pos n) - 1 + (Z.pos (digits2_pos n) - 1))
                 <= Z.pos (n * n)).
    { rewrite Z.pow_add_r, Pos2Z.inj_mul by lia.
      apply Z.mul_le_mono_nonneg; try lia;
        apply Z.pow_nonneg; lia. }
    assert (Z.pos (digits2_pos n) - 1 + (Z.pos (digits2_pos n) - 1)
            < Z.pos (digits2_pos (n * n))).
    { apply (Z.pow_lt_mono_r_iff 2); lia. }
    lia. }
  destruct d as [|n|n]; [reflexivity| |].
  - rewrite of_Z_pos by lia. apply S; lia.
  - rewrite of_Z_neg by lia. apply S; lia.
Qed.

(** Rounding a full mantissa with its location: the mantissa or its
    successor, renormalised when the successor is [2^prec]. *)
Lemma round_loc q e l :
  Z.pos (digits2_pos q) = prec ->
  3 - emax - prec <= e -> e + 1 <= emax - prec ->
  binary_round_aux prec emax false (Z.pos q) e l
  = if round_nearest_even (Z.pos q) l <? 2 ^ prec
    then S754_finite false (Z.to_pos (round_nearest_even (Z.pos q) l)) e
    else S754_finite false (Z.to_pos (2 ^ (prec - 1))) (e + 1).
Proof.
  intros D E1 E2. unfold binary_round_aux.
  rewrite (shift_is_zero q e l) by lia.
  rewrite IEEE_facts.shr_record_of_loc_m, loc_roundtrip.
  pose proof (Binary64.round_nearest_even_bounds q l) as B.
  pose proof (digits_upper q) as U. pose proof (digits_lower q) as L.
  rewrite D in U, L.
  assert (H2 : 2 ^ prec = 2 * 2 ^ (prec - 1)).
  { replace prec with (Z.succ (prec - 1)) at 1 by lia.
    apply Z.pow_succ_r. lia. }
  assert (Hp : 0 < 2 ^ (prec - 1)) by (apply Z.pow_pos_nonneg; lia).
  destruct (round_nearest_even (Z.pos q) l) as [|q'|q'] eqn:R; try lia.
  destruct (Z.ltb_spec (Z.pos q') (2 ^ prec)) as [Lt|Ge].
  - rewrite (shift_is_zero q' e loc_Exact); [|rewrite (digits_unique q' prec)|]; try lia.
    cbn [shr_record_of_loc shr_m].
    replace (e <=? emax - prec) with true by (symmetry; apply Z.leb_le; lia).
    reflexivity.
  - assert (Q : Z.pos q' = 2 * 2 ^ (prec - 1)) by lia.
    assert (D' : Z.pos (digits2_pos q') = prec + 1).
    { apply digits_unique. replace (prec + 1 - 1) with prec by lia.
      rewrite Z.pow_add_r by lia. simpl (2 ^ 1). lia. }
    unfold shr_fexp. cbn [Zdigits2]. rewrite D'.
    replace (fexp prec emax (prec + 1 + e) - e) with 1
      by (unfold fexp, emin; lia).
    cbn [shr shr_record_of_loc SpecFloat.iter_pos].
    rewrite Q, shr_1_double by lia. cbn [shr_m].
    destruct (2 ^ (prec - 1)) as [|h|h] eqn:Eh; try lia.
    replace (e + 1 <=? emax - prec) with true
      by (symmetry; apply Z.leb_le; lia).
    reflexivity.
Qed.

(** The square root of a normal number that stands for the integer [N]
    lies within half a unit in the last place of the real square root of
    [N]. *)
Lemma sqrt_nearest m e N :
  Z.pos (digits2_pos m) = prec -> 1 - prec <= e <= 0 ->
  Z.pos m = Z.pos N * 2 ^ (- e) ->
  exists mr er,
    SFsqrt prec emax (S754_finite false m e) = S754_finite false mr er
    /\ Z.pos (digits2_pos mr) = prec /\ 1 - prec <= er <= 0
    /\ IEEE.nearest_to_sqrt (Z.pos N) (S754_finite false mr er) = true.
Proof.
  intros D E V. cbn [SFsqrt]. unfold SFsqrt_core_binary. cbn [Zdigits2].
  rewrite D, !Z.div2_div.
  set (t := (prec + e + 1) / 2).
  assert (T : 2 * t <= prec + e + 1 <= 2 * t + 1).
  { unfold t. pose proof (Z.div_mod (prec + e + 1) 2 ltac:(lia)).
    pose proof (Z.mod_pos_bound (prec + e + 1) 2 ltac:(lia)). lia. }
  assert (T2 : 2 * (e / 2) <= e <= 2 * (e / 2) + 1).
  { pose proof (Z.div_mod e 2 ltac:(lia)).
    pose proof (Z.mod_pos_bound e 2 ltac:(lia)). lia. }
  rewrite fexp_magnitude by lia.
  replace (Z.min (t - prec) (e / 2)) with (t - prec) by lia.
  set (e' := t - prec).
  assert (E' : 1 - prec <= e' <= -1) by (unfold e'; lia).
  assert (S : prec - 1 <= e - 2 * e' <= prec) by (unfold e'; lia).
  destruct (e - 2 * e') as [|sh|sh] eqn:Es; try lia.
  pose proof (digits_upper m) as U. pose proof (digits_lower m) as L.
  rewrite D in U, L.
  set (h := 2 ^ (prec - 1)) in *.
  assert (Hh : 0 < h) by (apply Z.pow_pos_nonneg; lia).
  assert (H2 : 2 ^ prec = 2 * h).
  { unfold h. replace prec with (Z.succ (prec - 1)) at 1 by lia.
    apply Z.pow_succ_r. lia. }
  rewrite H2 in U.
  assert (Sh : 2 ^ Z.pos sh = h \/ 2 ^ Z.pos sh = 2 * h).
  { destruct (Z.eq_dec (Z.pos sh) (prec - 1)) as [->|]; [left; reflexivity|].
    right. replace (Z.pos sh) with prec by lia. exact H2. }
  rewrite Z.shiftl_mul_pow2 by lia.
  set (m' := Z.pos m * 2 ^ Z.pos sh).
  assert (VN : m' = Z.pos N * 2 ^ (- 2 * e')).
  { unfold m'. rewrite V, <- Es, <- Z.mul_assoc, <- Z.pow_add_r by lia.
    do 2 f_equal. lia. }
  assert (Mb : h * h <= m' < 2 * h * (2 * h)) by (unfold m'; nia).
  pose proof (Z.sqrtrem_spec m' ltac:(lia)) as Sp.
  pose proof (Z.sqrtrem_sqrt m') as Sq.
  pose proof (Z.sqrt_nonneg m') as Q0.
  destruct (Z.sqrtrem m') as [q r]. cbn [fst] in Sq. rewrite <- Sq in Q0.
  clear Sq. destruct Sp as [Sp Rb].
  assert (Qb : h <= q < 2 * h) by nia.
  destruct q as [|q|q]; try lia.
  assert (Dq : Z.pos (digits2_pos q) = prec).
  { apply digits_unique. fold h. rewrite H2. exact Qb. }
  rewrite round_loc by (exact Dq || lia).
  rewrite H2. fold h.
  assert (G : forall mr er : Z,
            h <= mr < 2 * h -> 1 - prec <= er <= 0 ->
            (2 * mr - 1) * (2 * mr - 1) < 4 * Z.pos N * 2 ^ (- 2 * er) ->
            4 * Z.pos N * 2 ^ (- 2 * er) < (2 * mr + 1) * (2 * mr + 1) ->
            exists mr' er',
              S754_finite false (Z.to_pos mr) er = S754_finite false mr' er'
              /\ Z.pos (digits2_pos mr') = prec /\ 1 - prec <= er' <= 0
              /\ IEEE.nearest_to_sqrt (Z.pos N) (S754_finite false mr' er')
                 = true).
  { intros mr er Mr Er A B. exists (Z.to_pos mr), er.
    split; [reflexivity|]. split; [|split; [exact Er|]].
    - apply digits_unique. rewrite Z2Pos.id by lia. fold h.
      rewrite H2. exact Mr.
    - unfold IEEE.nearest_to_sqrt.
      rewrite Z2Pos.id, !Z.pow_2_r by lia.
      apply andb_true_iff. split; [apply andb_true_iff; split|].
      + apply Z.leb_le; lia.
      + apply Z.ltb_lt, A.
      + apply Z.ltb_lt, B. }
  assert (V4 : 4 * Z.pos N * 2 ^ (- 2 * e') = 4 * m') by (rewrite VN; ring).
  assert (V5 : 4 * Z.pos N * 2 ^ (- 2 * (e' + 1)) = m').
  { rewrite VN. replace (- 2 * e') with (- 2 * (e' + 1) + 2) by lia.
    rewrite Z.pow_add_r by lia. simpl (2 ^ 2). ring. }
  destruct (Z.eqb_spec r 0) as [R0|R0].
  - cbn [round_nearest_even].
    destruct (Z.ltb_spec (Z.pos q) (2 * h)); [|lia].
    apply G; try lia; rewrite V4; nia.
  - destruct (Z.leb_spec r (Z.pos q)) as [Rq|Rq]; cbn [round_nearest_even].
    + destruct (Z.ltb_spec (Z.pos q) (2 * h)); [|lia].
      apply G; try lia; rewrite V4; nia.
    + destruct (Z.ltb_spec (Z.pos q + 1) (2 * h)) as [Lt|Ge].
      * apply G; try lia; rewrite V4; nia.
      * apply G; try lia; rewrite V5; nia.
Qed.

Lemma canon_shape s N :
  Z.pos (digits2_pos N) <= prec ->
  exists m e, canon s N = S754_finite s m e
              /\ Z.pos (digits2_pos m) = prec /\ 1 - prec <= e <= 0
              /\ Z.pos m = Z.pos N * 2 ^ (- e).
Proof.
  intros D. pose proof (Pos2Z.is_pos (digits2_pos N)) as D0.
  assert (P : 0 < 2 ^ (prec - Z.pos (digits2_pos N)))
    by (apply Z.pow_pos_nonneg; lia).
  assert (V : Z.pos (Z.to_pos (Z.pos N * 2 ^ (prec - Z.pos (digits2_pos N))))
              = Z.pos N * 2 ^ (prec - Z.pos (digits2_pos N)))
    by (rewrite Z2Pos.id; lia).
  eexists _, _. split; [reflexivity|]. split; [|split; [lia|]].
  - rewrite (digits_shifted _ N (prec - Z.pos (digits2_pos N)) ltac:(lia) V).
    lia.
  - rewrite V. do 2 f_equal. lia.
Qed.

(** [std::sqrt] of a small positive integer: the number of the format
    nearest to its real square root. *)
Lemma sqrt_of_Z n :
  0 < n < 2 ^ prec ->
  exists mr er,
    SFsqrt prec emax (F n) = S754_finite false mr er
    /\ Z.pos (digits2_pos mr) = prec /\ 1 - prec <= er <= 0
    /\ IEEE.nearest_to_sqrt n (S754_finite false mr er) = true.
Proof.
  intros B. destruct n as [|N|N]; try lia.
  rewrite of_Z_pos by lia.
  destruct (canon_shape false N (small_digits N ltac:(lia)))
    as (m & e & -> & D & E & V).
  apply sqrt_nearest; assumption.
Qed.

(** The distance computation on integer coordinates. *)
Lemma root_of_integers (a b c a' b' c' : Z) :
  Z.abs a < 2 ^ prec -> Z.abs b < 2 ^ prec -> Z.abs c < 2 ^ prec ->
  Z.abs a' < 2 ^ prec -> Z.abs b' < 2 ^ prec -> Z.abs c' < 2 ^ prec ->
  (a - a') * (a - a') + (b - b') * (b - b') + (c - c') * (c - c') < 2 ^ prec ->
  root prec emax (Point_new (F a) (F b) (F c)) (Point_new (F a') (F b') (F c'))
  = SFsqrt prec emax
      (F ((a - a') * (a - a') + (b - b') * (b - b') + (c - c') * (c - c'))).
Proof.
  intros Ba Bb Bc Ba' Bb' Bc' B.
  pose proof (Z.square_nonneg (a - a')) as Px.
  pose proof (Z.square_nonneg (b - b')) as Py.
  pose proof (Z.square_nonneg (c - c')) as Pz.
  assert (A : forall d, 0 <= d * d -> d * d < 2 ^ prec -> Z.abs d < 2 ^ prec).
  { intros d _ Hd. assert (Z.abs d <= d * d) by nia. lia. }
  unfold root, Point_new. cbn [x_ y_ z_].
  rewrite !sub_exact by (assumption || (apply A; lia)).
  rewrite !square_exact by ((apply A; lia) || lia).
  rewrite add_exact by (rewrite ?Z.abs_eq; lia).
  rewrite add_exact by (rewrite ?Z.abs_eq; lia).
  reflexivity.
Qed.

End Format.

End Exact.

Module Formats.

Lemma double_prec : 2 <= Double.prec.
Proof. unfold Double.prec. lia. Qed.

Lemma double_emax : Double.prec <= Double.emax.
Proof. unfold Double.prec, Double.emax. lia. Qed.

Lemma float_prec : 2 <= Float.prec.
Proof. unfold Float.prec. lia. Qed.

Lemma float_emax : Float.prec <= Float.emax.
Proof. unfold Float.prec, Float.emax. lia. Qed.

(** A [float] with a full mantissa widens to the [double] of the same
    value: 29 zero bits are appended. *)
Lemma widen s m e :
  Z.pos (digits2_pos m) = Float.prec -> 1 - Float.prec <= e <= 0 ->
  Float.to_double (S754_finite s m e)
  = S754_finite s (Pos.iter xO m 29) (e - 29).
Proof.
  unfold Float.prec. intros D E.
  unfold Float.to_double, IEEE.convert, binary_round.
  replace (fexp Double.prec Double.emax (Z.pos (digits2_pos m) + e))
    with (e - 29) by (unfold fexp, emin, Double.prec, Double.emax; lia).
  unfold shl_align. replace (e - 29 - e) with (Z.neg 29) by lia.
  apply (Exact.kept Double.prec Double.emax).
  - rewrite Digits.digits_iter_xO. unfold Double.prec. lia.
  - unfold Double.prec, Double.emax. lia.
Qed.

Lemma double_distance (a b : Point Z) :
  magnitude_below Double.prec a -> magnitude_below Double.prec b ->
  exact_sum_of_squares a b < 2 ^ Double.prec ->
  distanceFrom (integral Double.of_Z a) (integral Double.of_Z b)
  = Double.sqrt (Double.of_Z (exact_sum_of_squares a b)).
Proof.
  destruct a as [a1 a2 a3], b as [b1 b2 b3].
  unfold magnitude_below, exact_sum_of_squares. cbn [x_ y_ z_].
  intros (A1 & A2 & A3) (B1 & B2 & B3) S.
  exact (Exact.root_of_integers Double.prec Double.emax double_prec double_emax
           a1 a2 a3 b1 b2 b3 A1 A2 A3 B1 B2 B3 S).
Qed.

Lemma float_distance (a b : Point Z) :
  magnitude_below Float.prec a -> magnitude_below Float.prec b ->
  exact_sum_of_squares a b < 2 ^ Float.prec ->
  distanceFrom (integral Float.of_Z a) (integral Float.of_Z b)
  = Float.to_double (Float.sqrt (Float.of_Z (exact_sum_of_squares a b))).
Proof.
  destruct a as [a1 a2 a3], b as [b1 b2 b3].
  unfold magnitude_below, exact_sum_of_squares. cbn [x_ y_ z_].
  intros (A1 & A2 & A3) (B1 & B2 & B3) S.
  pose proof (Exact.root_of_integers Float.prec Float.emax float_prec float_emax
           a1 a2 a3 b1 b2 b3 A1 A2 A3 B1 B2 B3 S) as R.
  unfold Float.sqrt, Float.of_Z. rewrite <- R. reflexivity.
Qed.

End Formats.

(** C1 as stated fails: on [Point<int>] the points [(0,0,0)] and
    [(70000,0,0)] are at Euclidean distance 70000, but the square
    [70000 * 70000] does not fit in an [int] and [distanceFrom] returns a
    value between 24597.41 and 24597.42; on [Point<double>] the points
    [(0,0,0)] and [(2^600,0,0)] are at Euclidean distance [2^600], a
    [double], but the square overflows and [distanceFrom] returns plus
    infinity. *)
Lemma distanceFrom_not_euclidean :
  (let p : Point int := Point_new 0 0 0 in
   let q : Point int := Point_new 70000 0 0 in
   exact_sum_of_squares p q = 70000 * 70000
   /\ IEEE.value_between 2459741 2459742 2 (distanceFrom p q) = true
   /\ distanceFrom p q <> Double.of_Z 70000)
  /\ (let p : Point double :=
        Point_new (Double.of_Z 0) (Double.of_Z 0) (Double.of_Z 0) in
      let q : Point double :=
        Point_new (Double.of_Z (2 ^ 600)) (Double.of_Z 0) (Double.of_Z 0) in
      IEEE.is_finite (Double.of_Z (2 ^ 600)) = true
      /\ distanceFrom p q = S754_infinity false).
Proof. vm_compute. repeat split; discriminate. Qed.

(** C1, the computation, amended: for every coordinate type with the three
    operators and a square root, [p.distanceFrom(q)] is a [double], obtained
    by subtracting the coordinates axis by axis, multiplying each difference
    by itself, adding the three products and taking the square root, every
    step in the arithmetic of the coordinate type.  That value is the
    correctly rounded Euclidean distance, the [double] nearest to the real
    square root of the exact [(p.x-q.x)^2 + (p.y-q.y)^2 + (p.z-q.z)^2] and
    [+0.0] when that sum is 0, on [Point<int>] when the sum fits in an
    [int], and on [Point<double>] for integer-valued coordinates of
    magnitude below [2^53] when the sum is below [2^53]; on [Point<float>],
    for integer-valued coordinates of magnitude below [2^24] when the sum is
    below [2^24], it is the [float] nearest to that square root, widened to
    [double] without change of value. *)
Theorem distanceFrom_euclidean :
  (forall (T : Type) (A : Arithmetic T) (p q : Point T),
     (distanceFrom p q : double)
     = std_sqrt (sum_of_three (squared_difference x p q)
                              (squared_difference y p q)
                              (squared_difference z p q))
     /\ distanceFrom p q = euclidean_distance p q
     /\ (forall axis, squared_difference axis p q
                      = ((axis p - axis q) * (axis p - axis q))%coord))
  /\ (forall p q : Point int,
        exact_sum_of_squares p q <= Int.INT_MAX ->
        distanceFrom p q
        = Double.sqrt (Double.of_Z ((x p - x q) ^ 2 + (y p - y q) ^ 2
                                    + (z p - z q) ^ 2))
        /\ (exact_sum_of_squares p q = 0 -> distanceFrom p q = IEEE.pos_zero)
        /\ (0 < exact_sum_of_squares p q ->
            IEEE.nearest_to_sqrt (exact_sum_of_squares p q) (distanceFrom p q)
            = true))
  /\ (forall a b : Point Z,
        magnitude_below Double.prec a -> magnitude_below Double.prec b ->
        exact_sum_of_squares a b < 2 ^ Double.prec ->
        let d := distanceFrom (integral Double.of_Z a) (integral Double.of_Z b) in
        d = Double.sqrt (Double.of_Z (exact_sum_of_squares a b))
        /\ (exact_sum_of_squares a b = 0 -> d = IEEE.pos_zero)
        /\ (0 < exact_sum_of_squares a b ->
            IEEE.nearest_to_sqrt (exact_sum_of_squares a b) d = true))
  /\ (forall a b : Point Z,
        magnitude_below Float.prec a -> magnitude_below Float.prec b ->
        exact_sum_of_squares a b < 2 ^ Float.prec ->
        let r := Float.sqrt (Float.of_Z (exact_sum_of_squares a b)) in
        let d := distanceFrom (integral Float.of_Z a) (integral Float.of_Z b) in
        d = Float.to_double r
        /\ (exact_sum_of_squares a b = 0 -> d = IEEE.pos_zero)
        /\ (0 < exact_sum_of_squares a b ->
            IEEE.nearest_to_sqrt (exact_sum_of_squares a b) r = true
            /\ exists m e, r = S754_finite false m e
                           /\ d = S754_finite false (Pos.iter xO m 29) (e - 29))).
Proof.
  split; [|split; [|split]].
  - intros T A p q. repeat split.
  - intros p q B.
    pose proof (distanceFrom_int_exact p q B) as E.
    split; [|split].
    + rewrite E. unfold exact_sum_of_squares, x, y, z. do 2 f_equal. ring.
    + intros Z. rewrite E, Z. reflexivity.
    + intros P. rewrite E.
      destruct (Exact.sqrt_of_Z Double.prec Double.emax
                  Formats.double_prec Formats.double_emax
                  (exact_sum_of_squares p q))
        as (mr & er & R & _ & _ & N).
      { unfold Int.INT_MAX in B. unfold Double.prec.
        assert (2147483647 < 2 ^ 53) by reflexivity. lia. }
      unfold Double.sqrt, Double.of_Z. rewrite R. exact N.
  - intros a b Ma Mb S d. unfold d.
    pose proof (Formats.double_distance a b Ma Mb S) as E.
    split; [exact E|split].
    + intros Z. rewrite E, Z. reflexivity.
    + intros P. rewrite E.
      destruct (Exact.sqrt_of_Z Double.prec Double.emax
                  Formats.double_prec Formats.double_emax
                  (exact_sum_of_squares a b) (conj P S))
        as (mr & er & R & _ & _ & N).
      unfold Double.sqrt, Double.of_Z. rewrite R. exact N.
  - intros a b Ma Mb S r d. unfold d, r.
    pose proof (Formats.float_distance a b Ma Mb S) as E.
    split; [exact E|split].
    + intros Z. rewrite E, Z. reflexivity.
    + intros P.
      destruct (Exact.sqrt_of_Z Float.prec Float.emax
                  Formats.float_prec Formats.float_emax
                  (exact_sum_of_squares a b) (conj P S))
        as (mr & er & R & D & Er & N).
      rewrite E. unfold Float.sqrt, Float.of_Z. rewrite R.
      split; [exact N|]. exists mr, er. split; [reflexivity|].
      apply Formats.widen; assumption.
Qed.

Lemma distanceFrom_euclidean_witness :
  let p : Point int := Point_new 1 (-2) 3 in
  let q : Point int := Point_new 4 2 15 in
  exact_sum_of_squares p q <= Int.INT_MAX
  /\ distanceFrom p q = Double.sqrt (Double.of_Z 169)
  /\ distanceFrom p q = Double.of_Z 13.
Proof.
  intros p q.
  assert (B : exact_sum_of_squares p q <= Int.INT_MAX) by (vm_compute; discriminate).
  split; [exact B|]. split; [|reflexivity].
  exact (proj1 (proj1 (proj2 distanceFrom_euclidean) p q B)).
Defined.
